(** * Route registration and resolution of the minima router

    A shallow embedding of [Routes.Add], [Routes.Get], [matchRoutes] and
    [cleanArray], together with the small part of Go's [strings] package
    they call.  Go strings are byte sequences, modelled by [string]
    (a list of [ascii]); [map[string]V] is a [gmap string V]; slices are
    lists, and an index read out of range is a run-time panic. *)

From Stdlib Require Import ZArith Ascii String Sorted.
From stdpp Require Import base option list gmap strings.

Local Open Scope string_scope.
Local Open Scope list_scope.
Local Open Scope Z_scope.

(** ** The part of Go's [strings] package used by the router *)

Module GoStrings.

(** The separator of every call in the router is the one-byte string
    ["/"]; it is passed as that byte. *)
Definition slash : ascii := "/"%char.

(** [strings.Split(s, sep)]: the tokens between the separators; a string
    without separator (the empty one too) gives one token. *)
Fixpoint Split (s : string) (sep : ascii) : list string :=
  match s with
  | EmptyString => [EmptyString]
  | String c s' =>
      if Ascii.eqb c sep then EmptyString :: Split s' sep
      else match Split s' sep with
           | t :: ts => String c t :: ts
           | [] => [String c EmptyString]
           end
  end.

(** [strings.Join(elems, sep)]. *)
Fixpoint Join (elems : list string) (sep : string) : string :=
  match elems with
  | [] => EmptyString
  | [e] => e
  | e :: es => e +:+ sep +:+ Join es sep
  end.

(** [strings.HasPrefix(s, prefix)]. *)
Fixpoint HasPrefix (s prefix : string) : bool :=
  match prefix, s with
  | EmptyString, _ => true
  | String _ _, EmptyString => false
  | String c p', String d s' => Ascii.eqb c d && HasPrefix s' p'
  end.

(** [s[n:]] for [n <= len(s)]. *)
Fixpoint slice_from (s : string) (n : nat) : string :=
  match n, s with
  | O, _ => s
  | S n', String _ s' => slice_from s' n'
  | S _, EmptyString => EmptyString
  end.

(** [strings.TrimPrefix(s, prefix)]. *)
Definition TrimPrefix (s prefix : string) : string :=
  if HasPrefix s prefix then slice_from s (String.length prefix) else s.

(** [strings.LastIndex(s, sep)]: the index of the last separator, [-1]
    when there is none. *)
Fixpoint LastIndex (s : string) (sep : ascii) : Z :=
  match s with
  | EmptyString => -1
  | String c s' =>
      let i := LastIndex s' sep in
      if 0 <=? i then i + 1
      else if Ascii.eqb c sep then 0 else -1
  end.

Fixpoint take (n : nat) (s : string) : string :=
  match n, s with
  | S n', String c s' => String c (take n' s')
  | _, _ => EmptyString
  end.

(** The slice expression [s[:index]]; it panics ([None]) unless
    [0 <= index <= len(s)]. *)
Definition slice_to (s : string) (index : Z) : option string :=
  if (0 <=? index) && (index <=? Z.of_nat (String.length s))
  then Some (take (Z.to_nat index) s) else None.

End GoStrings.
Import GoStrings.

(** ** Outcome of running a piece of the program *)

Inductive run (A : Type) : Type :=
| Returns (a : A)   (* normal return *)
| Panics            (* run-time panic (index or slice bound out of range) *)
| OutOfFuel.        (* the loop bound of the model was exhausted *)
Arguments Returns {A} a.
Arguments Panics {A}.
Arguments OutOfFuel {A}.

(** ** Data model *)

(** [type param struct]. *)
Record param : Type := mkParam { name : string; fixed : bool }.

Section Router.

(** A handler is an opaque function value; [None] is Go's [nil]. *)
Context {Fn : Type}.
Definition Handler : Type := option Fn.

(** [type Route struct]. *)
Record Route : Type := mkRoute {
  prefix : string;
  partNames : list param;
  function : Handler
}.

(** [type Routes struct]. *)
Record Routes : Type := mkRoutes { roots : gmap string (list Route) }.

(** The triple returned by [Get] and [matchRoutes]; the parameter map
    is [None] for Go's [nil] map. *)
Definition result : Type := Handler * option (gmap string string) * bool.

Definition notFound : result := (None, None, false).

(** [NewRoutes]. *)
Definition NewRoutes : Routes := mkRoutes ∅.

(** ** Registration *)

(** One iteration of the loop of [Add] over the tokens, on the loop's
    variables [(rootParts, varParts, paramsFound)]. *)
Definition Add_step (st : list string * list param * bool) (p : string)
  : list string * list param * bool :=
  let '(rootParts, varParts, paramsFound) := st in
  let paramsFound := if HasPrefix p ":" then true else paramsFound in
  if paramsFound then
    if HasPrefix p ":" then
      (rootParts, varParts ++ [mkParam (TrimPrefix p ":") false], paramsFound)
    else
      (rootParts, varParts ++ [mkParam p true], paramsFound)
  else (rootParts ++ [p], varParts, paramsFound).

(** The prefix and the segments [Add] computes for a pattern. *)
Definition pattern_parts (path : string) : string * list param :=
  let parts := Split path slash in
  let '(rootParts, varParts, _) := fold_left Add_step parts ([], [], false) in
  (Join rootParts "/", varParts).

(** [r.roots[k]] read as a value: a missing key gives the nil slice. *)
Definition bucket (r : Routes) (k : string) : list Route :=
  default [] (roots r !! k).

(** [Routes.Add]: the table after the call. *)
Definition Add (r : Routes) (path : string) (f : Handler) : Routes :=
  let '(root, varParts) := pattern_parts path in
  mkRoutes (<[root := bucket r root ++ [mkRoute root varParts f]]> (roots r)).

(** ** Resolution *)

(** [cleanArray]. *)
Fixpoint cleanArray (a : list string) : list string :=
  match a with
  | [] => []
  | s :: a' => if String.eqb s "" then cleanArray a' else s :: cleanArray a'
  end.

(** The inner loop of [matchRoutes] over [r.partNames], from index [i]
    on.  [Returns None] is [continue outer]; [Returns (Some m)] is the
    loop running to its end with the map [m]; the reads [params[i]]
    panic out of range. *)
Fixpoint matchParts (params : list string) (i : nat) (parts : list param)
    (paramNames : gmap string string) : run (option (gmap string string)) :=
  match parts with
  | [] => Returns (Some paramNames)
  | p :: parts' =>
      if fixed p then
        match params !! i with
        | None => Panics
        | Some tok =>
            if negb (String.eqb tok (name p)) then Returns None
            else matchParts params (S i) parts' paramNames
        end
      else
        match params !! i with
        | None => Panics
        | Some tok =>
            matchParts params (S i) parts' (<[name p := tok]> paramNames)
        end
  end.

(** The raw tokens of [path] for an entry of prefix [pre]. *)
Definition raw_tokens (path pre : string) : list string :=
  Split (TrimPrefix (TrimPrefix path pre) "/") slash.

(** [matchRoutes]. *)
Fixpoint matchRoutes (path : string) (routes : list Route) : run result :=
  match routes with
  | [] => Returns notFound
  | r :: routes' =>
      let params := raw_tokens path (prefix r) in
      let valid := cleanArray params in
      if Nat.eqb (length valid) (length (partNames r)) then
        match matchParts params 0 (partNames r) ∅ with
        | Returns (Some paramNames) => Returns (function r, Some paramNames, true)
        | Returns None => matchRoutes path routes'
        | Panics => Panics
        | OutOfFuel => OutOfFuel
        end
      else matchRoutes path routes'
  end.

(** The loop of [Routes.Get], with the table passed through: each
    result is paired with the table as the call leaves it.  [fuel]
    bounds the number of iterations. *)
Fixpoint Get_loop (fuel : nat) (r : Routes) (path remaining : string)
  : run result * Routes :=
  match fuel with
  | O => (OutOfFuel, r)
  | S fuel' =>
      match roots r !! remaining with
      | Some routes => (matchRoutes path routes, r)
      | None =>
          if Z.of_nat (String.length remaining) <? 2 then (Returns notFound, r)
          else
            let index := LastIndex remaining slash in
            if index <? 0 then (Returns notFound, r)
            else if 0 <? index then
              match slice_to remaining index with
              | Some remaining' => Get_loop fuel' r path remaining'
              | None => (Panics, r)
              end
            else Get_loop fuel' r path "/"
      end
  end.

(** [Routes.Get]: the loop starts at [remaining = path]; it shortens
    [remaining] at every turn, so [len(path) + 1] turns are enough. *)
Definition Get_st (r : Routes) (path : string) : run result * Routes :=
  Get_loop (S (String.length path)) r path path.

Definition Get (r : Routes) (path : string) : run result :=
  fst (Get_st r path).

End Router.

Arguments Handler : clear implicits.
Arguments Route : clear implicits.
Arguments Routes : clear implicits.
Arguments result : clear implicits.

(** ** Notions used to state the properties *)

(** What one turn of the loop of [Get] does to [remaining] when the
    bucket lookup has failed: [None] when the loop gives up, the next
    value of [remaining] otherwise. *)
Definition truncate (remaining : string) : option string :=
  if Z.of_nat (String.length remaining) <? 2 then None
  else
    let index := LastIndex remaining slash in
    if index <? 0 then None
    else if 0 <? index then Some (take (Z.to_nat index) remaining)
    else Some "/".

(** The successive truncations of a string, at most [fuel] of them. *)
Fixpoint truncations (fuel : nat) (remaining : string) : list string :=
  match fuel with
  | O => []
  | S fuel' =>
      remaining ::
        match truncate remaining with
        | Some remaining' => truncations fuel' remaining'
        | None => []
        end
  end.

(** The keys [Get] may probe for a path, in the order of the probes. *)
Definition probes (path : string) : list string :=
  truncations (S (String.length path)) path.

(** A string without the separator: one path segment. *)
Fixpoint no_slash (s : string) : bool :=
  match s with
  | EmptyString => true
  | String c s' => negb (Ascii.eqb c slash) && no_slash s'
  end.

(** A pattern without parameter token: no token starts with [':']. *)
Definition no_param_token (p : string) : bool :=
  forallb (λ tok, negb (HasPrefix tok ":")) (Split p slash).

(** [b] is [a] without its last segment: [a] is [b], a separator and a
    segment; the leading separator alone stays when [b] would be empty. *)
Definition drops_last_segment (a b : string) : Prop :=
  ∃ seg, no_slash seg = true ∧
         ((b ≠ "" ∧ a = b +:+ "/" +:+ seg) ∨
          (b = "/" ∧ a = "/" +:+ seg ∧ seg ≠ "")).

Section Notions.

Context {Fn : Type}.
Implicit Types (r : Routes Fn) (e : Route Fn) (routes : list (Route Fn)).

(** The bucket of the first key of a list that the table has. *)
Fixpoint first_bucket r (keys : list string) : option (list (Route Fn)) :=
  match keys with
  | [] => None
  | k :: keys' =>
      match roots r !! k with
      | Some routes => Some routes
      | None => first_bucket r keys'
      end
  end.

(** The matching rule of one entry, in the words of the specification:
    the number of non-empty tokens is the number of segments, and the
    raw token at the index of every fixed segment is its literal. *)
Definition satisfies (path : string) e : Prop :=
  let params := raw_tokens path (prefix e) in
  length (cleanArray params) = length (partNames e) ∧
  ∀ i p, partNames e !! i = Some p → fixed p = true →
         params !! i = Some (name p).

(** The same rule as a test. *)
Fixpoint fixed_agree (params : list string) (i : nat) (parts : list param)
  : bool :=
  match parts with
  | [] => true
  | p :: parts' =>
      (if fixed p then bool_decide (params !! i = Some (name p)) else true)
      && fixed_agree params (S i) parts'
  end.

Definition entry_matches (path : string) e : bool :=
  let params := raw_tokens path (prefix e) in
  Nat.eqb (length (cleanArray params)) (length (partNames e))
  && fixed_agree params 0 (partNames e).

(** The captures of the variable segments: the raw token at the index
    of the segment, under the name of the segment. *)
Fixpoint captures (params : list string) (i : nat) (parts : list param)
    (m : gmap string string) : gmap string string :=
  match parts with
  | [] => m
  | p :: parts' =>
      captures params (S i) parts'
        (if fixed p then m else <[name p := default "" (params !! i)]> m)
  end.

Definition entry_captures (path : string) e : gmap string string :=
  captures (raw_tokens path (prefix e)) 0 (partNames e) ∅.

(** The first entry of a bucket that matches, in the order of the
    bucket. *)
Fixpoint first_match (path : string) routes : option (Route Fn) :=
  match routes with
  | [] => None
  | e :: routes' =>
      if entry_matches path e then Some e else first_match path routes'
  end.

(** The entries of a table. *)
Definition registered r e : Prop :=
  ∃ k routes, roots r !! k = Some routes ∧ e ∈ routes.

(** The table built by a sequence of calls of [Add] on a new table. *)
Definition build (ops : list (string * Handler Fn)) : Routes Fn :=
  fold_left (λ r op, Add r op.1 op.2) ops NewRoutes.

(** Every entry sits in the bucket of its prefix. *)
Definition keyed_by_prefix r : Prop :=
  ∀ k routes e, roots r !! k = Some routes → e ∈ routes → prefix e = k.

(** Every entry sits in the bucket of its prefix and has the prefix and
    the segments of one of the given patterns. *)
Definition registered_from (patterns : list string) r : Prop :=
  ∀ k routes e, roots r !! k = Some routes → e ∈ routes →
    prefix e = k ∧
    ∃ q, q ∈ patterns ∧ pattern_parts q = (prefix e, partNames e).

(** The table without the entries whose prefix is the empty string. *)
Definition remove_empty_prefix r : Routes Fn :=
  mkRoutes (filter (λ e, prefix e ≠ "") <$> roots r).

(** The flag [found] of a result is [false]. *)
Definition not_found (x : run (result Fn)) : Prop :=
  ∃ h m, x = Returns (h, m, false).

(** *** Three sentences of the specification, as they are written *)

(** [found] is false exactly when no registered entry satisfies the
    path. *)
Definition found_iff_claim r (path : string) : Prop :=
  not_found (Get r path) ↔ ∀ e, registered r e → ¬ satisfies path e.

(** [Add(p, h)] on any table followed by [Get(p)] returns [(h, {}, true)]
    when [p] has no parameter token. *)
Definition round_trip_claim r (p : string) (h : Handler Fn) : Prop :=
  no_param_token p = true → Get (Add r p h) p = Returns (h, Some ∅, true).

(** The bucket of the empty string is never probed, and removing the
    entries of empty prefix does not change the result of [Get]. *)
Definition empty_prefix_unreachable_claim r (path : string) : Prop :=
  ("" ∉ probes path) ∧ Get (remove_empty_prefix r) path = Get r path.

End Notions.

(** ** Tables used as examples *)

Definition h1 : Handler nat := Some 1%nat.
Definition h2 : Handler nat := Some 2%nat.

(** [Add("/users/:id", h1)]. *)
Definition table_users : Routes nat := Add NewRoutes "/users/:id" h1.

(** [Add("/a/:x/:y", h1); Add("/a/b", h2)]: the bucket ["/a/b"] hides
    the bucket ["/a"] from every path below ["/a/b"]. *)
Definition table_shadow : Routes nat :=
  Add (Add NewRoutes "/a/:x/:y" h1) "/a/b" h2.

(** [Add("/a", h1)]. *)
Definition table_static : Routes nat := Add NewRoutes "/a" h1.

(** [Add("", h1)]: the empty pattern, whose prefix is the empty string. *)
Definition table_empty_pattern : Routes nat := Add NewRoutes "" h1.

(** [Add("/:id", h1); Add("/b/:x", h2)]. *)
Definition table_leading_param : Routes nat :=
  Add (Add NewRoutes "/:id" h1) "/b/:x" h2.

(** ** Notions for the further properties of the router *)

(** The segment [Add] stores for a token once a parameter token has been
    seen. *)
Definition segment_of (tok : string) : param :=
  if HasPrefix tok ":" then mkParam (TrimPrefix tok ":") false
  else mkParam tok true.

(** The names of the variable segments, in order. *)
Definition variable_names (parts : list param) : list string :=
  name <$> filter (λ p, fixed p = false) parts.

(** The number of separators of a string. *)
Fixpoint count_slash (s : string) : nat :=
  match s with
  | EmptyString => O
  | String c s' => ((if Ascii.eqb c slash then 1 else 0) + count_slash s')%nat
  end.

(** ** The application object of minima.go *)

Module App.

(** What [ServeHTTP] does to the outside, in the order of the source. *)
Inductive event (Fn : Type) : Type :=
| ParseForm                    (* q.ParseForm() *)
| LogParseError                (* log.Printf("Error parsing form: %s", err) *)
| MakeResponse                 (* response(w, q, &m.properties) *)
| MakeRequest                  (* request(q) *)
| ServePlugin (params : option (gmap string string))
                               (* m.Middleware.ServePlugin(res, req) *)
| CallHandler (f : Fn) (params : option (gmap string string))
                               (* f(res, req), with req.Params = params *)
| CallNotFound (f : Fn)        (* m.router.notfound(res, req) *)
| WriteBody (body : string).   (* w.Write([]byte(body)) *)
Arguments ParseForm {Fn}.
Arguments LogParseError {Fn}.
Arguments MakeResponse {Fn}.
Arguments MakeRequest {Fn}.
Arguments ServePlugin {Fn} params.
Arguments CallHandler {Fn} f params.
Arguments CallNotFound {Fn} f.
Arguments WriteBody {Fn} body.

Section Core.

(** [Fn] are the handlers, [V] the non-nil values of [interface{}];
    [ConfigT] and [PluginsT] stand for [*Config] and [*Plugins], which the
    functions below only store. *)
Context {Fn V ConfigT PluginsT : Type}.

(** The two fields of [Router] that minima.go reads: the table of each
    HTTP method, [map[string]*Routes], and the handler [notfound].  The
    type is declared outside these files. *)
Record Router : Type := mkRouter {
  routes : gmap string (Routes Fn);
  notfound : Handler Fn
}.

(** [type minima struct].  [server] is [None] for the nil pointer and
    holds the address of the server otherwise; [properties] is [None]
    for the nil map; durations are integers. *)
Record minima : Type := mkMinima {
  server : option string;
  started : bool;
  Timeout : Z;
  router : Router;
  properties : option (gmap string (option V));
  Config : ConfigT;
  Middleware : PluginsT;
  drain : Z
}.

(** [New]: the composite literal sets four fields and leaves the others
    at their zero value.  The results of [NewRouter()], [NewConfig()] and
    [use()] are arguments. *)
Definition New (newRouter : Router) (newConfig : ConfigT) (plugins : PluginsT)
  : minima :=
  mkMinima None false 0 newRouter None newConfig plugins 0.

(** [SetProp]: an assignment to an entry of a nil map panics. *)
Definition SetProp (m : minima) (key : string) (value : option V) : run minima :=
  match properties m with
  | None => Panics
  | Some props =>
      Returns (mkMinima (server m) (started m) (Timeout m) (router m)
                 (Some (<[key := value]> props)) (Config m) (Middleware m)
                 (drain m))
  end.

(** [GetProp]: reading a nil map, or a missing key, gives the nil
    interface. *)
Definition GetProp (m : minima) (key : string) : option V :=
  match properties m with
  | None => None
  | Some props => default None (props !! key)
  end.

(** [ShutdownTimeout]. *)
Definition ShutdownTimeout (m : minima) (t : Z) : minima :=
  mkMinima (server m) (started m) (Timeout m) (router m) (properties m)
    (Config m) (Middleware m) t.

(** [Listen]: [log.Panicf] panics when the instance has started;
    otherwise the server is set up, the instance is marked as started
    and the error of [ListenAndServe], an input here, is returned. *)
Definition Listen {E : Type} (m : minima) (addr : string) (served : E)
  : run (E * minima) :=
  if started m then Panics
  else Returns (served,
                mkMinima (Some addr) true (Timeout m) (router m) (properties m)
                  (Config m) (Middleware m) (drain m)).

(** [ServeHTTP], for a request of the given method and path;
    [form_ok] tells whether [q.ParseForm()] succeeds.  The result is the
    trace of the calls made and how the function ends: looking up the
    table of a method that has none gives a nil [*Routes], whose [Get]
    panics, and so does the call of a nil handler.  Every call made is
    taken to return here; [ServeHTTP_calls] below gives each call its
    outcome. *)
Definition ServeHTTP (m : minima) (method path : string) (form_ok : bool)
  : list (event Fn) * run unit :=
  match routes (router m) !! method with
  | None => ([], Panics)
  | Some table =>
      match Get table path with
      | Returns (f, params, true) =>
          if form_ok then
            match f with
            | Some fn =>
                ([ParseForm; MakeResponse; MakeRequest; ServePlugin params;
                  CallHandler fn params], Returns tt)
            | None =>
                ([ParseForm; MakeResponse; MakeRequest; ServePlugin params],
                 Panics)
            end
          else ([ParseForm; LogParseError], Returns tt)
      | Returns (_, _, false) =>
          match notfound (router m) with
          | Some nf => ([MakeResponse; MakeRequest; CallNotFound nf], Returns tt)
          | None =>
              ([MakeResponse; MakeRequest; WriteBody "No matching route found"],
               Returns tt)
          end
      | Panics => ([], Panics)
      | OutOfFuel => ([], OutOfFuel)
      end
  end.

(** Calls made one after the other, each of which returns or panics as
    [returns] tells: a panic ends the run at the call that raised it. *)
Fixpoint run_calls (returns : event Fn → bool) (calls : list (event Fn))
  : list (event Fn) * run unit :=
  match calls with
  | [] => ([], Returns tt)
  | c :: calls' =>
      if returns c then
        (c :: (run_calls returns calls').1, (run_calls returns calls').2)
      else ([c], Panics)
  end.

(** [ServeHTTP] with the outcome of the calls it makes: there is no
    [recover], so a panic of [ParseForm], [response], [request], the
    plug-ins, the handler, [notfound], [log.Printf] or [w.Write] ends
    [ServeHTTP] with that panic; [ServeHTTP] above is the case in which
    each of them returns. *)
Definition ServeHTTP_calls (m : minima) (method path : string) (form_ok : bool)
    (returns : event Fn → bool) : list (event Fn) * run unit :=
  match routes (router m) !! method with
  | None => ([], Panics)
  | Some table =>
      match Get table path with
      | Returns (f, params, true) =>
          if form_ok then
            match f with
            | Some fn =>
                run_calls returns
                  [ParseForm; MakeResponse; MakeRequest; ServePlugin params;
                   CallHandler fn params]
            | None =>
                match run_calls returns
                        [ParseForm; MakeResponse; MakeRequest; ServePlugin params]
                with
                | (trace, Returns _) => (trace, Panics)
                | stopped => stopped
                end
            end
          else run_calls returns [ParseForm; LogParseError]
      | Returns (_, _, false) =>
          run_calls returns
            [MakeResponse; MakeRequest;
             match notfound (router m) with
             | Some nf => CallNotFound nf
             | None => WriteBody "No matching route found"
             end]
      | Panics => ([], Panics)
      | OutOfFuel => ([], OutOfFuel)
      end
  end.

End Core.

Arguments Router : clear implicits.
Arguments minima : clear implicits.

End App.

(** ** The response headers of [OutgoingHeader] *)

Module OutgoingHeader.

(** The state behind [h.res]: the header map of the response
    ([http.Header], a [map[string][]string]), whether the writer is an
    [http.Flusher], and how often it has been flushed. *)
Record response : Type := mkResponse {
  header : gmap string (list string);
  flusher : bool;
  flushed : nat
}.

Section Methods.

(** [textproto.CanonicalMIMEHeaderKey], which [http.Header] applies to
    every key: any function of the key. *)
Variable canonical : string → string.

(** [Set]: [http.Header.Set] replaces the values of the key. *)
Definition SetHeader (h : response) (key value : string) : response :=
  mkResponse (<[canonical key := [value]]> (header h)) (flusher h) (flushed h).

(** [Get]: [http.Header.Get] gives the first value of the key, the empty
    string without one. *)
Definition GetHeader (h : response) (key : string) : string :=
  match header h !! canonical key with
  | Some (v :: _) => v
  | _ => ""
  end.

(** [Del]. *)
Definition DelHeader (h : response) (key : string) : response :=
  mkResponse (delete (canonical key) (header h)) (flusher h) (flushed h).

(** [Setlength]. *)
Definition Setlength (h : response) (len : string) : response :=
  SetHeader h "Content-length" len.

(** [BaseHeaders]. *)
Definition BaseHeaders (h : response) : response :=
  SetHeader (SetHeader h "transfer-encoding" "chunked") "connection" "keep-alive".

(** [Flush]: the result [true] and the response after the call. *)
Definition Flush (h : response) : bool * response :=
  let h1 :=
    if String.eqb (GetHeader h "Content-Type") ""
    then SetHeader h "Content-Type" "text/html;charset=utf-8"
    else h in
  let h2 :=
    if flusher h1 then mkResponse (header h1) (flusher h1) (S (flushed h1))
    else h1 in
  (true, h2).

End Methods.

End OutgoingHeader.

(** * Properties *)

(** ** The string functions *)

Lemma Split_not_nil s sep : Split s sep ≠ [].
Proof.
  destruct s as [|c s]; simpl; [done|].
  destruct (Ascii.eqb c sep); [done|].
  by destruct (Split s sep).
Qed.

Lemma Join_cons_cons e1 e2 es sep :
  Join (e1 :: e2 :: es) sep = e1 +:+ sep +:+ Join (e2 :: es) sep.
Proof. reflexivity. Qed.

(** Joining the tokens of a string gives the string back. *)
Lemma Join_Split s : Join (Split s slash) "/" = s.
Proof.
  induction s as [|c s IH]; [reflexivity|].
  cbn [Split].
  destruct (Ascii.eqb_spec c slash) as [->|Hc].
  - destruct (Split s slash) as [|t ts] eqn:E; [by apply Split_not_nil in E|].
    rewrite Join_cons_cons, IH. reflexivity.
  - destruct (Split s slash) as [|t ts] eqn:E; [by apply Split_not_nil in E|].
    destruct ts as [|t' ts].
    + simpl in *. by rewrite IH.
    + rewrite Join_cons_cons in *. rewrite <- IH. reflexivity.
Qed.

Lemma HasPrefix_refl s : HasPrefix s s = true.
Proof.
  induction s as [|c s IH]; [reflexivity|].
  simpl. by rewrite Ascii.eqb_refl, IH.
Qed.

Lemma slice_from_all s : slice_from s (String.length s) = "".
Proof. induction s as [|c s IH]; [reflexivity|]. exact IH. Qed.

Lemma TrimPrefix_self s : TrimPrefix s s = "".
Proof. unfold TrimPrefix. by rewrite HasPrefix_refl, slice_from_all. Qed.

Lemma TrimPrefix_empty_l pre : TrimPrefix "" pre = "".
Proof. unfold TrimPrefix. by destruct pre. Qed.

Lemma TrimPrefix_empty_r s : TrimPrefix s "" = s.
Proof. unfold TrimPrefix. by destruct s. Qed.

Lemma LastIndex_bounds s sep :
  -1 ≤ LastIndex s sep < Z.of_nat (String.length s).
Proof.
  induction s as [|c s IH]; [simpl; lia|].
  cbn [LastIndex String.length].
  destruct (Z.leb_spec 0 (LastIndex s sep)); [lia|].
  destruct (Ascii.eqb c sep); lia.
Qed.

Lemma take_length n s :
  (n ≤ String.length s)%nat → String.length (take n s) = n.
Proof.
  revert s. induction n as [|n IH]; intros [|c s] Hn; simpl in *;
    try reflexivity; try lia.
  f_equal. apply IH. lia.
Qed.

(** ** The truncation step *)

Lemma truncate_shorter s s' :
  truncate s = Some s' → (String.length s' < String.length s)%nat.
Proof.
  unfold truncate. intros H.
  destruct (Z.ltb_spec (Z.of_nat (String.length s)) 2); [done|].
  pose proof (LastIndex_bounds s slash) as Hb.
  destruct (Z.ltb_spec (LastIndex s slash) 0); [done|].
  destruct (Z.ltb_spec 0 (LastIndex s slash)); simplify_eq.
  - rewrite take_length; lia.
  - simpl. lia.
Qed.

Lemma truncate_not_empty s s' : truncate s = Some s' → s' ≠ "".
Proof.
  unfold truncate. intros H.
  destruct (Z.ltb_spec (Z.of_nat (String.length s)) 2); [done|].
  pose proof (LastIndex_bounds s slash) as Hb.
  destruct (Z.ltb_spec (LastIndex s slash) 0); [done|].
  destruct (Z.ltb_spec 0 (LastIndex s slash)); simplify_eq; [|done].
  intros E. apply (f_equal String.length) in E.
  rewrite take_length in E; simpl in E; lia.
Qed.

Section Resolution.

Context {Fn : Type}.
Implicit Types (r : Routes Fn) (e : Route Fn) (routes : list (Route Fn)).
Implicit Types (h : Handler Fn) (params : list string) (parts : list param).

(** The loop of [Get] probes the truncations in order and stops at the
    first one that is a key; it does not touch the table. *)
Lemma Get_loop_truncations fuel r path remaining :
  (String.length remaining < fuel)%nat →
  Get_loop fuel r path remaining =
    (match first_bucket r (truncations fuel remaining) with
     | Some routes => matchRoutes path routes
     | None => Returns notFound
     end, r).
Proof.
  revert remaining.
  induction fuel as [|fuel IH]; intros remaining Hf; [lia|].
  cbn [Get_loop truncations first_bucket].
  destruct (roots r !! remaining) as [routes|] eqn:Hk; [done|].
  destruct (truncate remaining) as [s'|] eqn:Ht.
  - pose proof (truncate_shorter _ _ Ht) as Hlt.
    revert Ht. unfold truncate.
    destruct (Z.ltb_spec (Z.of_nat (String.length remaining)) 2); [done|].
    pose proof (LastIndex_bounds remaining slash) as Hb.
    destruct (Z.ltb_spec (LastIndex remaining slash) 0); [done|].
    destruct (Z.ltb_spec 0 (LastIndex remaining slash)); intros [= <-].
    + unfold slice_to.
      destruct (Z.leb_spec 0 (LastIndex remaining slash)); [|lia].
      destruct (Z.leb_spec (LastIndex remaining slash)
                  (Z.of_nat (String.length remaining))); [|lia].
      simpl. apply IH. lia.
    + apply IH. lia.
  - revert Ht. unfold truncate.
    destruct (Z.ltb_spec (Z.of_nat (String.length remaining)) 2); [done|].
    destruct (Z.ltb_spec (LastIndex remaining slash) 0); [done|].
    by destruct (Z.ltb_spec 0 (LastIndex remaining slash)).
Qed.

Lemma Get_st_probes r path :
  Get_st r path =
    (match first_bucket r (probes path) with
     | Some routes => matchRoutes path routes
     | None => Returns notFound
     end, r).
Proof. unfold Get_st, probes. apply Get_loop_truncations. lia. Qed.

Lemma Get_probes r path :
  Get r path =
    match first_bucket r (probes path) with
    | Some routes => matchRoutes path routes
    | None => Returns notFound
    end.
Proof. unfold Get. by rewrite Get_st_probes. Qed.

End Resolution.


(** ** Matching inside one bucket *)

Lemma cleanArray_length (a : list string) :
  (length (cleanArray a) ≤ length a)%nat.
Proof.
  induction a as [|s a IH]; simpl; [lia|].
  destruct (String.eqb s ""); simpl; lia.
Qed.

(** Inside the bounds of the raw tokens the inner loop never panics: it
    abandons the entry at the first fixed segment that disagrees and
    otherwise ends with the captures. *)
Lemma matchParts_in_bounds (params : list string) parts i m :
  (i + length parts ≤ length params)%nat →
  matchParts params i parts m =
    Returns (if fixed_agree params i parts
             then Some (captures params i parts m) else None).
Proof.
  revert i m. induction parts as [|p parts IH]; intros i m Hlen; [done|].
  simpl in Hlen. cbn [matchParts fixed_agree captures].
  destruct (lookup_lt_is_Some_2 params i) as [tok Htok]; [lia|].
  rewrite Htok. destruct (fixed p).
  - destruct (String.eqb_spec tok (name p)) as [->|Hne]; simpl.
    + rewrite bool_decide_eq_true_2 by done. simpl. apply IH. lia.
    + rewrite bool_decide_eq_false_2 by congruence. done.
  - simpl. apply IH. lia.
Qed.

Lemma fixed_agree_spec (params : list string) parts i :
  fixed_agree params i parts = true ↔
  ∀ j p, parts !! j = Some p → fixed p = true →
         params !! (i + j)%nat = Some (name p).
Proof.
  revert i. induction parts as [|p parts IH]; intros i; simpl.
  - split; [|done]. intros _ j p Hj. by rewrite lookup_nil in Hj.
  - rewrite andb_true_iff, IH. split.
    + intros [Hp Hrest] [|j] q Hq Hfix; simpl in Hq.
      * simplify_eq. rewrite Hfix in Hp. apply bool_decide_eq_true_1 in Hp.
        by rewrite Nat.add_0_r.
      * replace (i + S j)%nat with (S i + j)%nat by lia. by eapply Hrest.
    + intros H. split.
      * destruct (fixed p) eqn:Hfix; [|done].
        apply bool_decide_eq_true_2.
        specialize (H 0%nat p eq_refl Hfix). by rewrite Nat.add_0_r in H.
      * intros j q Hq Hfix.
        replace (S i + j)%nat with (i + S j)%nat by lia. by apply H.
Qed.

(** A variable segment after which no variable segment has its name
    leaves the raw token of its index under its name. *)
Lemma captures_lookup (params : list string) parts i m j p :
  parts !! j = Some p → fixed p = false →
  (∀ j' q, (j < j')%nat → parts !! j' = Some q → fixed q = false →
           name q ≠ name p) →
  captures params i parts m !! name p = Some (default "" (params !! (i + j)%nat)).
Proof.
  revert i m j. induction parts as [|q parts IH]; intros i m j Hj Hvar Hlast.
  - by rewrite lookup_nil in Hj.
  - cbn [captures]. destruct j as [|j]; simpl in Hj.
    + simplify_eq. rewrite Hvar, Nat.add_0_r.
      assert (Hkeep : ∀ parts' i' m',
        (∀ j' q, parts' !! j' = Some q → fixed q = false → name q ≠ name p) →
        captures params i' parts' m' !! name p = m' !! name p).
      { clear. induction parts' as [|q parts' IH']; intros i' m' Hq; [done|].
        cbn [captures]. rewrite IH'.
        - destruct (fixed q) eqn:Hfq; [done|].
          rewrite lookup_insert_ne; [done|]. by apply (Hq 0%nat).
        - intros j' q' Hj'. by apply (Hq (S j')). }
      rewrite Hkeep.
      * by rewrite lookup_insert_eq.
      * intros j' q Hq. apply (Hlast (S j')); [lia|done].
    + replace (i + S j)%nat with (S i + j)%nat by lia.
      apply IH; [done..|].
      intros j' q' Hlt Hq'. apply (Hlast (S j')); [lia|done].
Qed.

Section Matching.

Context {Fn : Type}.
Implicit Types (r : Routes Fn) (e : Route Fn) (routes : list (Route Fn)).
Implicit Types (h : Handler Fn).

Lemma entry_matches_satisfies path e :
  entry_matches path e = true ↔ satisfies path e.
Proof.
  unfold entry_matches, satisfies.
  rewrite andb_true_iff, Nat.eqb_eq, fixed_agree_spec. done.
Qed.

Lemma entry_matches_false path e :
  entry_matches path e = false ↔ ¬ satisfies path e.
Proof.
  rewrite <- entry_matches_satisfies. by destruct (entry_matches path e).
Qed.

(** [matchRoutes] returns the first entry that matches, with its
    captures, and reports no match when there is none. *)
Lemma matchRoutes_first_match path routes :
  matchRoutes path routes =
    match first_match path routes with
    | Some e => Returns (function e, Some (entry_captures path e), true)
    | None => Returns notFound
    end.
Proof.
  induction routes as [|e routes IH]; [done|].
  cbn [matchRoutes first_match]. unfold entry_matches, entry_captures.
  destruct (Nat.eqb_spec (length (cleanArray (raw_tokens path (prefix e))))
              (length (partNames e))) as [Hlen|Hlen]; [|done].
  rewrite matchParts_in_bounds.
  - by destruct (fixed_agree _ _ _).
  - pose proof (cleanArray_length (raw_tokens path (prefix e))). lia.
Qed.

Lemma first_match_Some path routes e :
  first_match path routes = Some e →
  ∃ pre post, routes = pre ++ e :: post ∧ entry_matches path e = true ∧
              ∀ e', e' ∈ pre → entry_matches path e' = false.
Proof.
  induction routes as [|e0 routes IH]; [done|]. simpl.
  destruct (entry_matches path e0) eqn:E0.
  - intros [= <-]. exists [], routes. split_and!; [done..|].
    intros e' He'. by apply elem_of_nil in He'.
  - intros H. destruct (IH H) as (pre & post & -> & He & Hpre).
    exists (e0 :: pre), post. split_and!; [done..|].
    intros e' [->|He']%elem_of_cons; auto.
Qed.

Lemma first_match_None path routes :
  first_match path routes = None ↔
  ∀ e, e ∈ routes → entry_matches path e = false.
Proof.
  induction routes as [|e0 routes IH]; simpl.
  - split; [|done]. intros _ e He. by apply elem_of_nil in He.
  - destruct (entry_matches path e0) eqn:E0.
    + split; [done|]. intros H. specialize (H e0 ltac:(left)). congruence.
    + rewrite IH. split.
      * intros H e [->|He]%elem_of_cons; auto.
      * intros H e He. apply H. by right.
Qed.

Lemma first_match_app path pre routes :
  (∀ e, e ∈ pre → entry_matches path e = false) →
  first_match path (pre ++ routes) = first_match path routes.
Proof.
  induction pre as [|e0 pre IH]; intros H; [done|]. simpl.
  rewrite (H e0) by left. apply IH. intros e He. apply H. by right.
Qed.

End Matching.


(** ** The shape of the truncations *)

Lemma LastIndex_none s : LastIndex s slash < 0 → no_slash s = true.
Proof.
  induction s as [|c s IH]; [done|]. cbn [LastIndex no_slash].
  destruct (Z.leb_spec 0 (LastIndex s slash)); [lia|].
  destruct (Ascii.eqb c slash); [lia|]. intros _. simpl. apply IH. lia.
Qed.

(** The string splits at its last separator. *)
Lemma LastIndex_split s :
  0 ≤ LastIndex s slash →
  ∃ seg, no_slash seg = true ∧
         s = take (Z.to_nat (LastIndex s slash)) s +:+ "/" +:+ seg.
Proof.
  induction s as [|c s IH]; [simpl; lia|]. cbn [LastIndex].
  destruct (Z.leb_spec 0 (LastIndex s slash)) as [Hi|Hi].
  - intros _. destruct (IH Hi) as (seg & Hseg & Hs). exists seg. split; [done|].
    replace (Z.to_nat (LastIndex s slash + 1))
      with (S (Z.to_nat (LastIndex s slash))) by lia.
    cbn [take]. change (String c s = String c
      (take (Z.to_nat (LastIndex s slash)) s +:+ "/" +:+ seg)).
    f_equal. exact Hs.
  - destruct (Ascii.eqb_spec c slash) as [->|Hc]; [|lia].
    intros _. exists s. split; [by apply LastIndex_none|done].
Qed.

Lemma truncate_drops_last_segment s s' :
  truncate s = Some s' → drops_last_segment s s'.
Proof.
  intros Ht. pose proof (truncate_not_empty _ _ Ht) as Hne.
  revert Ht. unfold truncate.
  destruct (Z.ltb_spec (Z.of_nat (String.length s)) 2) as [|Hlen]; [done|].
  destruct (Z.ltb_spec (LastIndex s slash) 0) as [|Hi]; [done|].
  destruct (LastIndex_split s Hi) as (seg & Hseg & Hs).
  destruct (Z.ltb_spec 0 (LastIndex s slash)) as [Hpos|Hzero]; intros [= <-].
  - exists seg. split; [done|]. by left.
  - exists seg. split; [done|]. right.
    replace (LastIndex s slash) with 0 in Hs by lia. simpl in Hs.
    split_and!; [done..|]. intros ->. rewrite Hs in Hlen. simpl in Hlen. lia.
Qed.

Lemma truncations_head fuel s : hd_error (truncations (S fuel) s) = Some s.
Proof. reflexivity. Qed.

Lemma truncations_Sorted (R : relation string) fuel s :
  (∀ a b, truncate a = Some b → R a b) → Sorted R (truncations fuel s).
Proof.
  intros HR. revert s. induction fuel as [|fuel IH]; intros s; [constructor|].
  cbn [truncations]. destruct (truncate s) as [s'|] eqn:Ht.
  - constructor; [apply IH|].
    destruct fuel; simpl; constructor. by apply HR.
  - repeat constructor.
Qed.

(** Every truncation after the first is a non-empty string. *)
Lemma truncations_tail_not_empty fuel s k :
  k ∈ tail (truncations fuel s) → k ≠ "".
Proof.
  revert s. induction fuel as [|fuel IH]; intros s; simpl.
  - by intros ?%elem_of_nil.
  - destruct (truncate s) as [s'|] eqn:Ht; [|by intros ?%elem_of_nil].
    destruct fuel as [|fuel']; [by intros ?%elem_of_nil|].
    intros [->|Hk]%elem_of_cons.
    + by eapply truncate_not_empty.
    + by apply (IH s').
Qed.

Lemma probes_unfold path : probes path = path :: tail (probes path).
Proof. reflexivity. Qed.

Lemma probes_empty_string : probes "" = [""].
Proof. reflexivity. Qed.

(** Only the empty path makes [Get] probe the empty key. *)
Lemma probes_not_empty path : path ≠ "" → "" ∉ probes path.
Proof.
  intros Hp. rewrite probes_unfold. intros [E|Hk]%elem_of_cons; [done|].
  by apply truncations_tail_not_empty in Hk.
Qed.

(** ** Registration *)

Lemma Add_step_no_param (tokens acc : list string) :
  forallb (λ tok, negb (HasPrefix tok ":")) tokens = true →
  fold_left Add_step tokens (acc, [], false) = (acc ++ tokens, [], false).
Proof.
  revert acc. induction tokens as [|t tokens IH]; intros acc Hall; simpl.
  - by rewrite app_nil_r.
  - simpl in Hall. apply andb_true_iff in Hall as [Ht Hall].
    apply negb_true_iff in Ht. rewrite Ht.
    rewrite IH by done. by rewrite <- app_assoc.
Qed.

(** A pattern without parameter token is its own prefix and has no
    segment. *)
Lemma pattern_parts_no_param p :
  no_param_token p = true → pattern_parts p = (p, []).
Proof.
  intros Hp. unfold pattern_parts.
  rewrite Add_step_no_param by exact Hp. simpl. by rewrite Join_Split.
Qed.

Section Registration.

Context {Fn : Type}.
Implicit Types (r : Routes Fn) (e : Route Fn) (routes : list (Route Fn)).
Implicit Types (h : Handler Fn).

Lemma roots_Add r p h :
  roots (Add r p h) =
    <[(pattern_parts p).1 :=
        bucket r (pattern_parts p).1
          ++ [mkRoute (pattern_parts p).1 (pattern_parts p).2 h]]> (roots r).
Proof. unfold Add. by destruct (pattern_parts p). Qed.

Lemma roots_Add_eq r p h :
  roots (Add r p h) !! (pattern_parts p).1 =
    Some (bucket r (pattern_parts p).1
            ++ [mkRoute (pattern_parts p).1 (pattern_parts p).2 h]).
Proof. by rewrite roots_Add, lookup_insert_eq. Qed.

Lemma roots_Add_ne r p h k :
  k ≠ (pattern_parts p).1 → roots (Add r p h) !! k = roots r !! k.
Proof. intros Hk. by rewrite roots_Add, lookup_insert_ne. Qed.

Lemma keyed_by_prefix_new : keyed_by_prefix (@NewRoutes Fn).
Proof. intros k routes e Hk. simpl in Hk. by rewrite lookup_empty in Hk. Qed.

Lemma keyed_by_prefix_Add r p h :
  keyed_by_prefix r → keyed_by_prefix (Add r p h).
Proof.
  intros Hr k routes e Hk He.
  destruct (decide (k = (pattern_parts p).1)) as [->|Hne].
  - rewrite roots_Add_eq in Hk. simplify_eq.
    apply elem_of_app in He as [He|He].
    + unfold bucket in He.
      destruct (roots r !! (pattern_parts p).1) as [old|] eqn:Hold; simpl in He.
      * by eapply Hr.
      * by apply elem_of_nil in He.
    + apply list_elem_of_singleton in He. by subst e.
  - rewrite roots_Add_ne in Hk by done. by eapply Hr.
Qed.

Lemma keyed_by_prefix_fold ops r :
  keyed_by_prefix r →
  keyed_by_prefix (fold_left (λ r op, Add r op.1 op.2) ops r).
Proof.
  revert r. induction ops as [|[p h] ops IH]; intros r Hr; [done|].
  simpl. apply IH. by apply keyed_by_prefix_Add.
Qed.

Lemma keyed_by_prefix_build ops : keyed_by_prefix (@build Fn ops).
Proof. apply keyed_by_prefix_fold, keyed_by_prefix_new. Qed.

End Registration.


(** ** Lookups of the first bucket *)

Section Buckets.

Context {Fn : Type}.
Implicit Types (r : Routes Fn) (e : Route Fn) (routes : list (Route Fn)).
Implicit Types (h : Handler Fn) (keys : list string).

Lemma first_bucket_ext r1 r2 keys :
  (∀ k, k ∈ keys → roots r1 !! k = roots r2 !! k) →
  first_bucket r1 keys = first_bucket r2 keys.
Proof.
  induction keys as [|k keys IH]; intros H; [done|]. simpl.
  rewrite (H k) by left. rewrite IH; [done|].
  intros k' Hk'. apply H. by right.
Qed.

Lemma first_bucket_Some r keys routes :
  first_bucket r keys = Some routes →
  ∃ k, k ∈ keys ∧ roots r !! k = Some routes.
Proof.
  induction keys as [|k keys IH]; [done|]. simpl.
  destruct (roots r !! k) as [b|] eqn:Hk.
  - intros [= <-]. exists k. split; [left|done].
  - intros H. destruct (IH H) as (k' & Hin & Hk'). exists k'. split; [by right|done].
Qed.

Lemma first_bucket_new keys : first_bucket (@NewRoutes Fn) keys = None.
Proof. induction keys as [|k keys IH]; [done|]. simpl. by rewrite lookup_empty. Qed.

Lemma matchRoutes_returns path routes : ∃ res, matchRoutes path routes = Returns res.
Proof. rewrite matchRoutes_first_match. destruct (first_match path routes); eauto. Qed.

Lemma first_match_snoc path routes e :
  entry_matches path e = false →
  first_match path (routes ++ [e]) = first_match path routes.
Proof.
  intros He. induction routes as [|e0 routes IH]; simpl.
  - by rewrite He.
  - by rewrite IH.
Qed.

End Buckets.

(** ** The entries of a table built by [Add] *)

Lemma Add_step_varParts_length st tok :
  (length st.1.2 ≤ length (Add_step st tok).1.2)%nat.
Proof.
  destruct st as [[acc vs] b]. unfold Add_step.
  destruct (HasPrefix tok ":"), b; simpl; rewrite ?length_app; simpl; lia.
Qed.

Lemma fold_Add_step_varParts_length tokens st :
  (length st.1.2 ≤ length (fold_left Add_step tokens st).1.2)%nat.
Proof.
  revert st. induction tokens as [|t tokens IH]; intros st; simpl; [lia|].
  etrans; [apply (Add_step_varParts_length st t)|apply IH].
Qed.

(** The loop of [Add] ends without segment only when no token is a
    parameter. *)
Lemma fold_Add_step_no_segment tokens acc :
  (fold_left Add_step tokens (acc, [], false)).1.2 = [] →
  forallb (λ tok, negb (HasPrefix tok ":")) tokens = true.
Proof.
  revert acc. induction tokens as [|t tokens IH]; intros acc; [done|].
  cbn [fold_left forallb]. unfold Add_step at 2.
  destruct (HasPrefix t ":") eqn:Ht; simpl.
  - intros Hnil.
    pose proof (fold_Add_step_varParts_length tokens
                  (acc, [mkParam (TrimPrefix t ":") false], true)) as Hle.
    rewrite Hnil in Hle. simpl in Hle. lia.
  - apply IH.
Qed.

(** A pattern without segment is its own prefix. *)
Lemma pattern_parts_no_segment q root :
  pattern_parts q = (root, []) → q = root.
Proof.
  intros Hq.
  assert (Hno : no_param_token q = true).
  { apply (fold_Add_step_no_segment _ []). revert Hq. unfold pattern_parts.
    destruct (fold_left Add_step (Split q slash) ([], [], false)) as [[a v] b].
    by intros [= _ ->]. }
  rewrite (pattern_parts_no_param q Hno) in Hq. by injection Hq.
Qed.

Section Built.

Context {Fn : Type}.
Implicit Types (r : Routes Fn) (e : Route Fn) (routes : list (Route Fn)).
Implicit Types (h : Handler Fn) (ops : list (string * Handler Fn)).

Lemma registered_from_new : registered_from [] (@NewRoutes Fn).
Proof. intros k routes e Hk. simpl in Hk. by rewrite lookup_empty in Hk. Qed.

Lemma registered_from_Add qs r p h :
  registered_from qs r → registered_from (qs ++ [p]) (Add r p h).
Proof.
  intros Hr k routes e Hk He.
  assert (Hold : ∀ k' old, roots r !! k' = Some old → e ∈ old →
            prefix e = k' ∧
            ∃ q, q ∈ qs ++ [p] ∧ pattern_parts q = (prefix e, partNames e)).
  { intros k' old Hk' He'. destruct (Hr k' old e Hk' He') as (Hpre & q & Hq & Hparts).
    split; [done|]. exists q. split; [|done]. apply elem_of_app. by left. }
  destruct (decide (k = (pattern_parts p).1)) as [->|Hne].
  - rewrite roots_Add_eq in Hk. simplify_eq.
    apply elem_of_app in He as [He|He].
    + unfold bucket in He.
      destruct (roots r !! (pattern_parts p).1) as [old|] eqn:E; simpl in He.
      * by eapply Hold.
      * by apply elem_of_nil in He.
    + apply list_elem_of_singleton in He. subst e. simpl. split; [done|].
      exists p. split; [|by destruct (pattern_parts p)].
      apply elem_of_app. right. left.
  - rewrite roots_Add_ne in Hk by done. by eapply Hold.
Qed.

Lemma registered_from_fold ops qs r :
  registered_from qs r →
  registered_from (qs ++ ops.*1) (fold_left (λ r op, Add r op.1 op.2) ops r).
Proof.
  revert qs r. induction ops as [|[p h] ops IH]; intros qs r Hr.
  - simpl. by rewrite app_nil_r.
  - assert (E : qs ++ ((p, h) :: ops).*1 = (qs ++ [p]) ++ ops.*1)
      by (by rewrite <- app_assoc).
    rewrite E. cbn [fold_left]. apply IH. by apply registered_from_Add.
Qed.

Lemma registered_from_build ops : registered_from (ops.*1) (build ops).
Proof. apply (registered_from_fold ops []), registered_from_new. Qed.

(** In a table built by [Add], only an earlier registration of a
    pattern matches the pattern in its own bucket. *)
Lemma first_match_fresh_pattern ops p :
  p ∉ ops.*1 → first_match p (bucket (build ops) p) = None.
Proof.
  intros Hfresh. apply first_match_None. intros e He.
  destruct (entry_matches p e) eqn:Hm; [|done]. exfalso. apply Hfresh.
  unfold bucket in He.
  destruct (roots (build ops) !! p) as [routes|] eqn:Hk; simpl in He;
    [|by apply elem_of_nil in He].
  destruct (registered_from_build ops p routes e Hk He) as (Hpre & q & Hq & Hparts).
  apply andb_true_iff in Hm as [Hlen _]. apply Nat.eqb_eq in Hlen.
  unfold raw_tokens in Hlen. rewrite Hpre, TrimPrefix_self in Hlen.
  simpl in Hlen. symmetry in Hlen. apply nil_length_inv in Hlen.
  rewrite Hlen, Hpre in Hparts.
  by rewrite <- (pattern_parts_no_segment q p Hparts).
Qed.

End Built.

(** ** The claims *)

(** The bucket ["/a/b"] is found first for ["/a/b/c"] and fails; the
    bucket ["/a"], whose entry would match, is not tried. *)
Example one_shot_no_second_bucket :
  probes "/a/b/c" = ["/a/b/c"; "/a/b"; "/a"; "/"] ∧
  Get table_shadow "/a/b/c" = Returns notFound ∧
  matchRoutes "/a/b/c" (bucket table_shadow "/a") =
    Returns (h1, Some {[ "x" := "b"; "y" := "c" ]}, true).
Proof. split_and!; vm_compute; reflexivity. Qed.

(** C2. Totality: on every table (those built by calls of [Add] among
    them) and every path, [Get] returns a triple: it neither panics nor
    runs out of the loop bound.  Once the length check on the cleaned
    tokens has passed, every index the inner loop reads is inside the
    raw tokens, and the loop ends without panic. *)
Theorem Get_never_faults {Fn : Type} (r : Routes Fn) (path : string)
    (e : Route Fn) :
  (∃ h m found, Get r path = Returns (h, m, found)) ∧
  (length (cleanArray (raw_tokens path (prefix e))) = length (partNames e) →
   (∀ i, (i < length (partNames e))%nat →
         is_Some (raw_tokens path (prefix e) !! i)) ∧
   ∃ o, matchParts (raw_tokens path (prefix e)) 0 (partNames e) ∅ = Returns o).
Proof.
  split.
  - rewrite Get_probes. destruct (first_bucket r (probes path)) as [routes|].
    + destruct (matchRoutes_returns path routes) as [[[h m] f] ->]. eauto.
    + unfold notFound. eauto.
  - intros Hlen.
    pose proof (cleanArray_length (raw_tokens path (prefix e))) as Hle.
    split.
    + intros i Hi. apply lookup_lt_is_Some_2. lia.
    + rewrite matchParts_in_bounds by lia. eauto.
Qed.

Lemma Get_never_faults_witness :
  (∃ h m found, Get table_users "/users//42" = Returns (h, m, found)) ∧
  ∃ o, matchParts (raw_tokens "/users//42" "/users") 0
         [mkParam "id" false] ∅ = Returns o.
Proof.
  destruct (Get_never_faults table_users "/users//42"
              (mkRoute "/users" [mkParam "id" false] h1)) as [Hget Hin].
  split; [exact Hget|]. apply Hin. reflexivity.
Defined.

(** C3, as amended.  [found] is false exactly when no entry of the
    bucket chosen by the prefix fallback satisfies the path, the bucket
    of the first probe that is a key; this is so in particular when no
    probe is a key.  A result with [found] true comes from a registered
    entry that satisfies the path, and on the new table [Get] returns
    [(nil, nil, false)] for every path.  *)
Theorem Get_not_found_iff {Fn : Type} (r : Routes Fn) (path : string) :
  (not_found (Get r path) ↔
   ∀ routes, first_bucket r (probes path) = Some routes →
             ∀ e, e ∈ routes → ¬ satisfies path e) ∧
  (¬ not_found (Get r path) → ∃ e, registered r e ∧ satisfies path e) ∧
  Get (@NewRoutes Fn) path = Returns (None, None, false).
Proof.
  rewrite !Get_probes, first_bucket_new.
  destruct (first_bucket r (probes path)) as [routes|] eqn:Hb.
  - rewrite matchRoutes_first_match.
    destruct (first_match path routes) as [e|] eqn:Hm.
    + apply first_match_Some in Hm as (pre & post & -> & He & _).
      apply entry_matches_satisfies in He.
      assert (Hin : e ∈ pre ++ e :: post) by (apply elem_of_app; right; left).
      split_and!; [split| |done].
      * intros (h & m & [=]).
      * intros H. destruct (H _ eq_refl e Hin He).
      * intros _. exists e. split; [|done].
        apply first_bucket_Some in Hb as (k & _ & Hk). by exists k, (pre ++ e :: post).
    + split_and!; [split| |done].
      * intros _ routes' [= <-] e He. apply entry_matches_false.
        by eapply first_match_None.
      * intros _. by exists None, None.
      * intros H. destruct H. by exists None, None.
  - split_and!; [split| |done].
    + by intros _ routes' [=].
    + intros _. by exists None, None.
    + intros H. destruct H. by exists None, None.
Qed.

Lemma Get_not_found_iff_witness :
  ∃ e, registered table_users e ∧ satisfies "/users/42" e.
Proof.
  destruct (Get_not_found_iff table_users "/users/42") as (_ & Hfound & _).
  apply Hfound. intros (h & m & H). vm_compute in H. discriminate H.
Defined.

(** C3 as written fails: on [table_shadow] the path ["/a/b/c"] is not
    found, although the registered entry of ["/a/:x/:y"] satisfies it. *)
Lemma found_iff_counterexample : ¬ found_iff_claim table_shadow "/a/b/c".
Proof.
  intros [Hnone _].
  apply (Hnone ltac:(by exists None, None)
           (mkRoute "/a" [mkParam "x" false; mkParam "y" false] h1)).
  - exists "/a", [mkRoute "/a" [mkParam "x" false; mkParam "y" false] h1].
    split; [vm_compute; reflexivity|left].
  - apply entry_matches_satisfies. reflexivity.
Qed.

(** C4, as amended.  For a pattern [p] without parameter token, [Add(p, h)]
    on a table whose bucket [p] has no entry that matches [p] already,
    followed by [Get(p)], returns [(h, {}, true)]; a table built by calls
    of [Add] none of which registered [p] is such a table. *)
Theorem Add_Get_round_trip {Fn : Type} (r : Routes Fn) (p : string)
    (h : Handler Fn) (ops : list (string * Handler Fn)) :
  no_param_token p = true →
  (first_match p (bucket r p) = None →
   Get (Add r p h) p = Returns (h, Some ∅, true)) ∧
  (p ∉ ops.*1 → Get (Add (build ops) p h) p = Returns (h, Some ∅, true)).
Proof.
  intros Hp.
  assert (Hgen : ∀ r' : Routes Fn, first_match p (bucket r' p) = None →
            Get (Add r' p h) p = Returns (h, Some ∅, true));
    [|split; [apply Hgen|intros Hfresh; by apply Hgen, first_match_fresh_pattern]].
  clear r. intros r Hold.
  pose proof (roots_Add_eq r p h) as Hk.
  rewrite (pattern_parts_no_param p Hp) in Hk. simpl in Hk.
  rewrite Get_probes, probes_unfold. cbn [first_bucket]. rewrite Hk.
  rewrite matchRoutes_first_match, first_match_app
    by (by apply first_match_None).
  cbn [first_match]. unfold entry_matches, entry_captures, raw_tokens. simpl.
  by rewrite TrimPrefix_self.
Qed.

Lemma Add_Get_round_trip_witness :
  Get (Add table_users "/users" h2) "/users" = Returns (h2, Some ∅, true) ∧
  Get (Add table_shadow "/a" h2) "/a" = Returns (h2, Some ∅, true).
Proof.
  destruct (Add_Get_round_trip table_users "/users" h2
              [("/a/:x/:y", h1); ("/a/b", h2)] eq_refl) as [Hany _].
  destruct (Add_Get_round_trip table_users "/a" h2
              [("/a/:x/:y", h1); ("/a/b", h2)] eq_refl) as [_ Hbuilt].
  split.
  - apply Hany. reflexivity.
  - apply Hbuilt. vm_compute.
    intros H. repeat (apply elem_of_cons in H as [H|H]; [discriminate H|]).
    by apply elem_of_nil in H.
Defined.

(** C4 as written fails: when ["/a"] is registered twice, [Get("/a")]
    returns the handler of the first registration. *)
Lemma round_trip_counterexample : ¬ round_trip_claim table_static "/a" h2.
Proof.
  intros H. specialize (H eq_refl). vm_compute in H. discriminate H.
Qed.

(** C5. Capture correctness: the two resolutions of the specification,
    for every handler; and in general, when [matchRoutes] finds an
    entry, the map it returns has, under the name of each variable
    segment (the last one of that name), the raw token at the index of
    the segment. *)
Theorem capture_correctness {Fn : Type} (h : Handler Fn) (path : string)
    (routes : list (Route Fn)) (h' : Handler Fn) (m : gmap string string) :
  Get (Add NewRoutes "/users/:id" h) "/users/42"
    = Returns (h, Some {[ "id" := "42" ]}, true) ∧
  Get (Add NewRoutes "/users/:id/posts/:postId" h) "/users/42/posts/7"
    = Returns (h, Some {[ "id" := "42"; "postId" := "7" ]}, true) ∧
  (matchRoutes path routes = Returns (h', Some m, true) →
   ∃ e, e ∈ routes ∧ function e = h' ∧
     ∀ i p, partNames e !! i = Some p → fixed p = false →
       (∀ j q, (i < j)%nat → partNames e !! j = Some q → fixed q = false →
               name q ≠ name p) →
       is_Some (m !! name p) ∧
       m !! name p = raw_tokens path (prefix e) !! i).
Proof.
  split_and!; [vm_compute; reflexivity..|].
  rewrite matchRoutes_first_match.
  destruct (first_match path routes) as [e|] eqn:Hm; [|done].
  intros [= <- <-].
  apply first_match_Some in Hm as (pre & post & -> & He & _).
  exists e. split_and!; [apply elem_of_app; right; left|done|].
  intros i p Hi Hvar Hlast.
  unfold entry_captures.
  rewrite (captures_lookup _ _ 0 ∅ i p Hi Hvar Hlast). simpl.
  apply andb_true_iff in He as [Hlen _]. apply Nat.eqb_eq in Hlen.
  pose proof (cleanArray_length (raw_tokens path (prefix e))) as Hle.
  apply lookup_lt_Some in Hi.
  destruct (lookup_lt_is_Some_2 (raw_tokens path (prefix e)) i) as [tok Htok];
    [lia|].
  rewrite Htok. eauto.
Qed.

Lemma capture_correctness_witness :
  ∃ e, e ∈ bucket table_users "/users" ∧ function e = h1 ∧
    ∀ i p, partNames e !! i = Some p → fixed p = false →
      (∀ j q, (i < j)%nat → partNames e !! j = Some q → fixed q = false →
              name q ≠ name p) →
      is_Some (({[ "id" := "42" ]} : gmap string string) !! name p) ∧
      ({[ "id" := "42" ]} : gmap string string) !! name p
        = raw_tokens "/users/42" (prefix e) !! i.
Proof.
  destruct (capture_correctness h1 "/users/42" (bucket table_users "/users") h1
              {[ "id" := "42" ]}) as (_ & _ & Hcap).
  apply Hcap. vm_compute. reflexivity.
Defined.

(** C6. Fixed-segment enforcement: an entry is returned only when the
    raw token at the index of each of its fixed segments is the literal
    of the segment; an entry with a fixed segment that disagrees is
    abandoned and the rest of the bucket is tried.  After
    [Add("/a/:b/c", h)], ["/a/5/c"] resolves with [b = "5"] and
    ["/a/5/d"] is not found. *)
Theorem fixed_segment_enforcement {Fn : Type} (h : Handler Fn) (path : string)
    (e : Route Fn) (rest : list (Route Fn)) (i : nat) (p : param) :
  (partNames e !! i = Some p → fixed p = true →
   (∀ h' m, matchRoutes path [e] = Returns (h', m, true) →
            raw_tokens path (prefix e) !! i = Some (name p)) ∧
   (raw_tokens path (prefix e) !! i ≠ Some (name p) →
    matchRoutes path (e :: rest) = matchRoutes path rest)) ∧
  Get (Add NewRoutes "/a/:b/c" h) "/a/5/c"
    = Returns (h, Some {[ "b" := "5" ]}, true) ∧
  Get (Add NewRoutes "/a/:b/c" h) "/a/5/d" = Returns (None, None, false).
Proof.
  split_and!; [|vm_compute; reflexivity..].
  intros Hi Hfix. split.
  - intros h' m. rewrite matchRoutes_first_match. cbn [first_match].
    destruct (entry_matches path e) eqn:He; [|done].
    intros _. apply entry_matches_satisfies in He as [_ He]. by apply He.
  - intros Hne. rewrite !matchRoutes_first_match. cbn [first_match].
    destruct (entry_matches path e) eqn:He; [|done].
    apply entry_matches_satisfies in He as [_ He]. destruct Hne. by apply He.
Qed.

Lemma fixed_segment_enforcement_witness :
  matchRoutes "/a/5/d"
    [mkRoute "/a" [mkParam "b" false; mkParam "c" true] h1;
     mkRoute "/a" [mkParam "b" false; mkParam "d" true] h2]
  = matchRoutes "/a/5/d" [mkRoute "/a" [mkParam "b" false; mkParam "d" true] h2].
Proof.
  destruct (fixed_segment_enforcement h1 "/a/5/d"
           (mkRoute "/a" [mkParam "b" false; mkParam "c" true] h1)
           [mkRoute "/a" [mkParam "b" false; mkParam "d" true] h2]
           1%nat (mkParam "c" true)) as [Hfixed _].
  apply Hfixed; [reflexivity..|].
  vm_compute. discriminate.
Defined.

(** C10. Captures index the raw tokens: after [Add("/users/:id", h)],
    the doubled slash of ["/users//42"] makes the capture of [id] the
    empty token at index 0, and the trailing slash of ["/users/42/"]
    leaves the capture ["42"]; both paths are found. *)
Theorem raw_index_capture {Fn : Type} (h : Handler Fn) :
  raw_tokens "/users//42" "/users" = [""; "42"] ∧
  cleanArray (raw_tokens "/users//42" "/users") = ["42"] ∧
  Get (Add NewRoutes "/users/:id" h) "/users//42"
    = Returns (h, Some {[ "id" := "" ]}, true) ∧
  raw_tokens "/users/42/" "/users" = ["42"; ""] ∧
  Get (Add NewRoutes "/users/:id" h) "/users/42/"
    = Returns (h, Some {[ "id" := "42" ]}, true).
Proof. split_and!; vm_compute; reflexivity. Qed.

(** ** The bucket of the empty string *)

Lemma filter_all {A : Type} (P : A → Prop) `{∀ x, Decision (P x)} (l : list A) :
  (∀ x, x ∈ l → P x) → filter P l = l.
Proof.
  induction l as [|x l IH]; intros Hall; [done|].
  rewrite filter_cons_True by (apply Hall; left).
  f_equal. apply IH. intros y Hy. apply Hall. by right.
Qed.

Lemma roots_remove_empty_prefix {Fn : Type} (r : Routes Fn) (k : string) :
  keyed_by_prefix r → k ≠ "" →
  roots (remove_empty_prefix r) !! k = roots r !! k.
Proof.
  intros Hr Hk. unfold remove_empty_prefix. cbn [roots]. rewrite lookup_fmap.
  destruct (roots r !! k) as [routes|] eqn:E; [|done]. simpl. f_equal.
  apply filter_all. intros e He. by rewrite (Hr k routes e E He).
Qed.

(** An entry of empty prefix and at least one segment does not match
    the empty path. *)
Lemma entry_matches_empty_path {Fn : Type} (e : Route Fn) :
  prefix e = "" → partNames e ≠ [] → entry_matches "" e = false.
Proof.
  intros Hpre Hparts. unfold entry_matches, raw_tokens. rewrite Hpre. simpl.
  by destruct (partNames e).
Qed.

(** C9, as amended.  For every path other than the empty string, [Get]
    never probes the empty key, and on a table built by calls of [Add]
    its result is the same without the entries of empty prefix.  (The
    empty path is itself a probe, so the bucket of the empty string is
    read for it.)  On every table and for every path, registering a
    pattern of empty prefix and at least one segment, such as ["/:id"],
    leaves [Get] as it was: such a pattern is never resolved. *)
Theorem empty_prefix_bucket_unreachable {Fn : Type}
    (ops : list (string * Handler Fn)) (r : Routes Fn) (path p : string)
    (h : Handler Fn) :
  (path ≠ "" →
   ("" ∉ probes path) ∧
   Get (remove_empty_prefix (build ops)) path = Get (build ops) path) ∧
  ((pattern_parts p).1 = "" → (pattern_parts p).2 ≠ [] →
   Get (Add r p h) path = Get r path).
Proof.
  split.
  - intros Hpath. pose proof (probes_not_empty path Hpath) as Hprobes.
    split; [done|]. rewrite !Get_probes.
    rewrite (first_bucket_ext (remove_empty_prefix (build ops)) (build ops));
      [done|].
    intros k Hk. apply roots_remove_empty_prefix.
    + apply keyed_by_prefix_build.
    + by intros ->.
  - intros Hroot Hsegs. rewrite !Get_probes.
    destruct (decide (path = "")) as [->|Hpath].
    + rewrite probes_empty_string. cbn [first_bucket].
      pose proof (roots_Add_eq r p h) as Hk. rewrite Hroot in Hk. rewrite Hk.
      rewrite matchRoutes_first_match, first_match_snoc
        by (by apply entry_matches_empty_path).
      unfold bucket. destruct (roots r !! "") as [routes|].
      * by rewrite matchRoutes_first_match.
      * done.
    + rewrite (first_bucket_ext (Add r p h) r); [done|].
      intros k Hk. apply roots_Add_ne. rewrite Hroot. intros ->.
      by apply (probes_not_empty path Hpath).
Qed.

Lemma empty_prefix_bucket_unreachable_witness :
  (("" ∉ probes "/5") ∧
   Get (remove_empty_prefix table_leading_param) "/5"
     = Get table_leading_param "/5") ∧
  Get (Add NewRoutes "/:id" h1) "/5" = Get NewRoutes "/5".
Proof.
  destruct (empty_prefix_bucket_unreachable
              [("/:id", h1); ("/b/:x", h2)] NewRoutes "/5" "/:id" h1)
    as [Hprobe Hadd].
  split.
  - apply Hprobe. discriminate.
  - apply Hadd; [reflexivity|discriminate].
Defined.

(** C9 as written fails at the empty path: it is its own first probe,
    and the entry of the empty pattern, whose prefix is the empty
    string, answers it. *)
Lemma empty_prefix_counterexample :
  ¬ empty_prefix_unreachable_claim table_empty_pattern "" ∧
  probes "" = [""] ∧
  Get table_empty_pattern "" = Returns (h1, Some ∅, true) ∧
  Get (remove_empty_prefix table_empty_pattern) "" = Returns notFound.
Proof.
  split_and!; [|vm_compute; reflexivity..].
  intros [Hprobe _]. apply Hprobe. left.
Qed.


(** * Further properties of the router *)

#[local] Set Warnings "-clear-no-such-hyp".

(** ** More on the string functions *)

Lemma no_slash_Split s : no_slash s = true → Split s slash = [s].
Proof.
  induction s as [|c s IH]; [done|]. cbn [no_slash Split].
  intros [Hc Hs]%andb_true_iff. apply negb_true_iff in Hc.
  by rewrite Hc, (IH Hs).
Qed.

Lemma Split_tokens_no_slash s :
  Forall (λ t, no_slash t = true) (Split s slash).
Proof.
  induction s as [|c s IH]; [by repeat constructor|]. cbn [Split].
  destruct (Ascii.eqb c slash) eqn:Hc; [by constructor|].
  destruct (Split s slash) as [|t ts].
  - constructor; [simpl; by rewrite Hc|constructor].
  - inversion IH as [|? ? Ht Hts]; subst. constructor; [|done].
    simpl. by rewrite Hc.
Qed.

Lemma Split_app_slash a b :
  Split (a +:+ "/" +:+ b) slash = Split a slash ++ Split b slash.
Proof.
  induction a as [|c a IH]; [done|].
  change (String c a +:+ "/" +:+ b) with (String c (a +:+ "/" +:+ b)).
  cbn [Split]. rewrite IH.
  destruct (Ascii.eqb c slash); [done|].
  destruct (Split a slash) as [|t ts] eqn:E; [by apply Split_not_nil in E|done].
Qed.

Lemma append_cons c (a b : string) : String c a +:+ b = String c (a +:+ b).
Proof. reflexivity. Qed.

Lemma append_nil_l (b : string) : "" +:+ b = b.
Proof. reflexivity. Qed.

Lemma append_assoc (a b c : string) : (a +:+ b) +:+ c = a +:+ b +:+ c.
Proof.
  induction a as [|x a IH]; [done|]. by rewrite !append_cons, IH.
Qed.

Lemma Join_app_slash (ts us : list string) :
  ts ≠ [] → us ≠ [] → Join (ts ++ us) "/" = Join ts "/" +:+ "/" +:+ Join us "/".
Proof.
  intros Hts Hus. induction ts as [|t ts IH]; [done|].
  destruct ts as [|t' ts].
  - destruct us as [|u us]; [done|]. reflexivity.
  - change ((t :: t' :: ts) ++ us) with (t :: (t' :: ts) ++ us).
    change ((t' :: ts) ++ us) with (t' :: ts ++ us) at 1.
    rewrite Join_cons_cons.
    change (t' :: ts ++ us) with ((t' :: ts) ++ us).
    rewrite IH by done. rewrite Join_cons_cons.
    by rewrite !append_assoc.
Qed.

(** Splitting the join of slash-free tokens gives the tokens back. *)
Lemma Split_Join (ts : list string) :
  ts ≠ [] → Forall (λ t, no_slash t = true) ts →
  Split (Join ts "/") slash = ts.
Proof.
  intros Hne Hall. induction ts as [|t ts IH]; [done|].
  inversion Hall as [|? ? Ht Hts]; subst.
  destruct ts as [|t' ts]; [by apply no_slash_Split|].
  rewrite Join_cons_cons, Split_app_slash, no_slash_Split by done.
  by rewrite IH.
Qed.

Lemma HasPrefix_app a b : HasPrefix (a +:+ b) a = true.
Proof.
  induction a as [|c a IH]; [by destruct b|].
  rewrite append_cons. cbn [HasPrefix]. by rewrite Ascii.eqb_refl.
Qed.

Lemma HasPrefix_nil s : HasPrefix s "" = true.
Proof. by destruct s. Qed.

Lemma slice_from_app a b : slice_from (a +:+ b) (String.length a) = b.
Proof. induction a as [|c a IH]; [by destruct b|]. exact IH. Qed.

Lemma TrimPrefix_app a b : TrimPrefix (a +:+ b) a = b.
Proof. unfold TrimPrefix. by rewrite HasPrefix_app, slice_from_app. Qed.

Lemma take_app a b : take (String.length a) (a +:+ b) = a.
Proof.
  induction a as [|c a IH]; [by destruct b|].
  rewrite append_cons. cbn [String.length take]. by rewrite IH.
Qed.

Lemma take_app_more a b n :
  take (String.length a + n) (a +:+ b) = a +:+ take n b.
Proof.
  induction a as [|c a IH]; [done|].
  rewrite !append_cons. cbn [String.length Nat.add take]. by rewrite IH.
Qed.

Lemma length_app_string a b :
  String.length (a +:+ b) = (String.length a + String.length b)%nat.
Proof.
  induction a as [|c a IH]; [done|].
  rewrite append_cons. cbn [String.length]. by rewrite IH.
Qed.

Lemma no_slash_LastIndex s : no_slash s = true → LastIndex s slash = -1.
Proof.
  induction s as [|c s IH]; [done|]. cbn [no_slash LastIndex].
  intros [Hc Hs]%andb_true_iff. apply negb_true_iff in Hc.
  rewrite (IH Hs), Hc. reflexivity.
Qed.

(** The last separator of [a/b] is the one written, or the last of [b]. *)
Lemma LastIndex_app_slash a b :
  LastIndex (a +:+ "/" +:+ b) slash =
    if 0 <=? LastIndex b slash
    then Z.of_nat (String.length a) + 1 + LastIndex b slash
    else Z.of_nat (String.length a).
Proof.
  induction a as [|c a IH].
  - change ("" +:+ "/" +:+ b) with (String slash b). cbn [LastIndex String.length].
    destruct (Z.leb_spec 0 (LastIndex b slash)); [lia|].
    by rewrite Ascii.eqb_refl.
  - change (String c a +:+ "/" +:+ b) with (String c (a +:+ "/" +:+ b)).
    cbn [LastIndex String.length]. rewrite IH.
    destruct (Z.leb_spec 0 (LastIndex b slash)).
    + destruct (Z.leb_spec 0 (Z.of_nat (String.length a) + 1 + LastIndex b slash));
        lia.
    + destruct (Z.leb_spec 0 (Z.of_nat (String.length a))); lia.
Qed.

(** ** The loop of [Add] over the tokens *)

Lemma Add_step_found acc vs t :
  Add_step (acc, vs, true) t = (acc, vs ++ [segment_of t], true).
Proof. unfold Add_step, segment_of. by destruct (HasPrefix t ":"). Qed.

Lemma Add_step_first acc vs t :
  Add_step (acc, vs, false) t =
    if HasPrefix t ":" then (acc, vs ++ [segment_of t], true)
    else (acc ++ [t], vs, false).
Proof. unfold Add_step, segment_of. by destruct (HasPrefix t ":"). Qed.

Lemma fold_Add_step_found tokens acc vs :
  fold_left Add_step tokens (acc, vs, true)
    = (acc, vs ++ (segment_of <$> tokens), true).
Proof.
  revert vs. induction tokens as [|t tokens IH]; intros vs.
  - simpl. by rewrite app_nil_r.
  - cbn [fold_left]. rewrite Add_step_found, IH, <- app_assoc. reflexivity.
Qed.

Lemma fold_Add_step_span tokens acc :
  ∃ pre post,
    tokens = pre ++ post ∧
    Forall (λ t, HasPrefix t ":" = false) pre ∧
    (post = [] ∨ ∃ t ts, post = t :: ts ∧ HasPrefix t ":" = true) ∧
    (fold_left Add_step tokens (acc, [], false)).1
      = (acc ++ pre, segment_of <$> post).
Proof.
  revert acc. induction tokens as [|t tokens IH]; intros acc.
  - exists [], []. split_and!; [done|constructor|by left|].
    simpl. by rewrite app_nil_r.
  - cbn [fold_left]. rewrite Add_step_first.
    destruct (HasPrefix t ":") eqn:Ht.
    + exists [], (t :: tokens). split_and!; [done|constructor|right; eauto|].
      rewrite fold_Add_step_found. by rewrite app_nil_r.
    + destruct (IH (acc ++ [t])) as (pre & post & -> & Hpre & Hpost & Hfold).
      exists (t :: pre), post. split_and!; [done|by constructor|done|].
      rewrite Hfold. by rewrite <- app_assoc.
Qed.

Lemma pattern_parts_span (p : string) :
  ∃ pre post,
    Split p slash = pre ++ post ∧
    Forall (λ t, HasPrefix t ":" = false) pre ∧
    (post = [] ∨ ∃ t ts, post = t :: ts ∧ HasPrefix t ":" = true) ∧
    pattern_parts p = (Join pre "/", segment_of <$> post).
Proof.
  destruct (fold_Add_step_span (Split p slash) []) as
    (pre & post & Hsplit & Hpre & Hpost & Hfold).
  exists pre, post. split_and!; [done..|].
  unfold pattern_parts.
  destruct (fold_left Add_step (Split p slash) ([], [], false)) as [[a v] b].
  simpl in Hfold. by injection Hfold as -> ->.
Qed.

(** X1. [Add] cuts the tokens of a pattern in front of the first
    parameter token: the prefix is the join of the tokens before it,
    none of which is a parameter, and every token from it on becomes a
    segment, variable (without the colon) when it starts with a colon and
    fixed otherwise. *)
Theorem pattern_parts_decomposition (p : string) :
  ∃ pre post,
    Split p slash = pre ++ post ∧
    Forall (λ t, HasPrefix t ":" = false) pre ∧
    (post = [] ∨ ∃ t ts, post = t :: ts ∧ HasPrefix t ":" = true) ∧
    pattern_parts p = (Join pre "/", segment_of <$> post).
Proof. apply pattern_parts_span. Qed.

Lemma Forall_forallb_no_param (ts : list string) :
  Forall (λ t, HasPrefix t ":" = false) ts →
  forallb (λ tok, negb (HasPrefix tok ":")) ts = true.
Proof.
  induction 1 as [|t ts Ht _ IH]; [done|]. simpl. by rewrite Ht, IH.
Qed.

(** X2. The bucket key [Add] computes is a textual prefix of the
    pattern, has no parameter token, and is the pattern itself when the
    pattern has none; registered as a pattern of its own it is a static
    route that goes into the same bucket. *)
Theorem prefix_of_pattern (p : string) :
  HasPrefix p (pattern_parts p).1 = true ∧
  no_param_token (pattern_parts p).1 = true ∧
  pattern_parts (pattern_parts p).1 = ((pattern_parts p).1, []) ∧
  (if no_param_token p then pattern_parts p = (p, []) else (pattern_parts p).2 ≠ []).
Proof.
  destruct (pattern_parts_span p) as (pre & post & Hsplit & Hpre & Hpost & ->).
  cbn [fst snd].
  assert (Hno : no_param_token (Join pre "/") = true).
  { unfold no_param_token. destruct pre as [|t pre]; [reflexivity|].
    rewrite Split_Join; [by apply Forall_forallb_no_param|done|].
    pose proof (Split_tokens_no_slash p) as Hall. rewrite Hsplit in Hall.
    by apply Forall_app in Hall as [Hall _]. }
  split_and!; [|done|by apply pattern_parts_no_param|].
  - rewrite <- (Join_Split p) at 1. rewrite Hsplit.
    destruct pre as [|t pre]; [apply HasPrefix_nil|].
    destruct post as [|u post]; [rewrite app_nil_r; apply HasPrefix_refl|].
    rewrite Join_app_slash by done. apply HasPrefix_app.
  - destruct Hpost as [->|(t & ts & -> & Ht)].
    + rewrite app_nil_r in Hsplit.
      assert (Hnp : no_param_token p = true).
      { unfold no_param_token. rewrite Hsplit.
        by apply Forall_forallb_no_param. }
      rewrite Hnp. cbn [fmap list_fmap]. f_equal.
      by rewrite <- (Join_Split p), Hsplit.
    + assert (Hnp : no_param_token p = false).
      { unfold no_param_token. rewrite Hsplit, forallb_app. cbn [forallb].
        rewrite Ht. cbn [negb andb]. by rewrite andb_false_r. }
      by rewrite Hnp.
Qed.

(** X3. [cleanArray] keeps the non-empty tokens, in their order, and
    nothing else; cleaning twice changes nothing more. *)
Theorem cleanArray_filter (a : list string) :
  cleanArray a = filter (λ s, s ≠ "") a ∧
  cleanArray a `sublist_of` a ∧
  cleanArray (cleanArray a) = cleanArray a.
Proof.
  assert (Heq : ∀ b, cleanArray b = filter (λ s, s ≠ "") b).
  { induction b as [|s b IH]; [done|]. cbn [cleanArray]. rewrite filter_cons.
    destruct (String.eqb_spec s "") as [->|Hs].
    - by rewrite decide_False by (by intros []).
    - by rewrite decide_True, IH by done. }
  split_and!; [done|rewrite Heq; apply sublist_filter|].
  rewrite !Heq. rewrite list_filter_filter. apply list_filter_iff. naive_solver.
Qed.

Section Shape.

Context {Fn : Type}.
Implicit Types (r : Routes Fn) (e : Route Fn) (routes : list (Route Fn)).
Implicit Types (h : Handler Fn) (m : gmap string string).

Lemma captures_dom (params : list string) parts i m :
  dom (captures params i parts m) = dom m ∪ list_to_set (variable_names parts).
Proof.
  revert i m. induction parts as [|p parts IH]; intros i m.
  - unfold variable_names. simpl. set_solver.
  - cbn [captures]. rewrite IH. unfold variable_names. rewrite filter_cons.
    destruct (fixed p) eqn:Hp.
    + rewrite decide_False by done. done.
    + rewrite decide_True by done. rewrite dom_insert_L.
      cbn [fmap list_fmap list_to_set]. set_solver.
Qed.

Lemma Get_found_entry r path h mo :
  Get r path = Returns (h, mo, true) →
  ∃ e, registered r e ∧ satisfies path e ∧ function e = h ∧
       mo = Some (entry_captures path e).
Proof.
  rewrite Get_probes.
  destruct (first_bucket r (probes path)) as [routes|] eqn:Hb; [|done].
  rewrite matchRoutes_first_match.
  destruct (first_match path routes) as [e|] eqn:Hm; [|done].
  intros [= <- <-].
  apply first_match_Some in Hm as (pre & post & -> & He & _).
  apply first_bucket_Some in Hb as (k & _ & Hk).
  exists e. split_and!; [|by apply entry_matches_satisfies|done..].
  exists k, (pre ++ e :: post). split; [done|]. apply elem_of_app. right. left.
Qed.

End Shape.

(** X4. The shape of a result of [Get]: with [found] false the handler
    and the parameter map are both [nil]; with [found] true the map is
    not [nil], the handler is the one of a registered entry that
    satisfies the path, and the keys of the map are the names of the
    variable segments of that entry. *)
Theorem Get_result_shape {Fn : Type} (r : Routes Fn) (path : string)
    (h : Handler Fn) (mo : option (gmap string string)) (found : bool) :
  Get r path = Returns (h, mo, found) →
  if found then
    ∃ e m, registered r e ∧ satisfies path e ∧ function e = h ∧ mo = Some m ∧
           dom m = list_to_set (variable_names (partNames e))
  else h = None ∧ mo = None.
Proof.
  destruct found.
  - intros (e & Hreg & Hsat & Hfun & ->)%Get_found_entry.
    exists e, (entry_captures path e). split_and!; [done..|].
    unfold entry_captures. rewrite captures_dom. set_solver.
  - rewrite Get_probes.
    destruct (first_bucket r (probes path)) as [routes|]; [|by intros [= <- <-]].
    rewrite matchRoutes_first_match.
    destruct (first_match path routes); [done|by intros [= <- <-]].
Qed.

Lemma Get_result_shape_witness :
  ∃ e (m : gmap string string),
    registered table_users e ∧ satisfies "/users/42" e ∧
    function e = h1 ∧ Some {[ "id" := "42" ]} = Some m ∧
    dom m = list_to_set (variable_names (partNames e)).
Proof.
  apply (Get_result_shape table_users "/users/42" h1
           (Some {[ "id" := "42" ]}) true).
  vm_compute. reflexivity.
Defined.

(** ** The probes of [Get] are prefixes of the path *)

Lemma HasPrefix_spec s p : HasPrefix s p = true ↔ ∃ rest, s = p +:+ rest.
Proof.
  split.
  - revert s. induction p as [|c p IH]; intros s Hs; [by exists s|].
    destruct s as [|d s]; [done|]. cbn [HasPrefix] in Hs.
    apply andb_true_iff in Hs as [Hc Hs]. apply Ascii.eqb_eq in Hc as ->.
    destruct (IH s Hs) as [rest ->]. by exists rest.
  - intros [rest ->]. apply HasPrefix_app.
Qed.

Lemma HasPrefix_trans a b c :
  HasPrefix a b = true → HasPrefix b c = true → HasPrefix a c = true.
Proof.
  rewrite !HasPrefix_spec. intros [x ->] [y ->]. exists (y +:+ x).
  apply append_assoc.
Qed.

Lemma HasPrefix_take s n : HasPrefix s (take n s) = true.
Proof.
  revert s. induction n as [|n IH]; intros [|c s]; try reflexivity.
  cbn [take HasPrefix]. by rewrite Ascii.eqb_refl, IH.
Qed.

Lemma truncate_prefix s s' : truncate s = Some s' → HasPrefix s s' = true.
Proof.
  intros (seg & _ & [[_ ->]|(-> & -> & _)])%truncate_drops_last_segment;
    apply HasPrefix_app.
Qed.

Lemma truncations_prefix fuel s :
  Forall (λ k, HasPrefix s k = true) (truncations fuel s).
Proof.
  revert s. induction fuel as [|fuel IH]; intros s; [constructor|].
  cbn [truncations]. constructor; [apply HasPrefix_refl|].
  destruct (truncate s) as [s'|] eqn:Ht; [|constructor].
  eapply Forall_impl; [apply IH|]. intros k Hk. simpl in Hk.
  eapply HasPrefix_trans; [by apply truncate_prefix|done].
Qed.

Lemma count_slash_app a b :
  count_slash (a +:+ b) = (count_slash a + count_slash b)%nat.
Proof.
  induction a as [|c a IH]; [done|].
  rewrite append_cons. cbn [count_slash]. rewrite IH. lia.
Qed.

Lemma truncations_length fuel s :
  (length (truncations fuel s) ≤ count_slash s + 1)%nat.
Proof.
  revert s. induction fuel as [|fuel IH]; intros s; [simpl; lia|].
  cbn [truncations length].
  destruct (truncate s) as [s'|] eqn:Ht; [|simpl; lia].
  destruct (truncate_drops_last_segment _ _ Ht)
    as (seg & _ & [[_ ->]|(-> & -> & _)]).
  - specialize (IH s'). rewrite !count_slash_app. simpl. lia.
  - rewrite count_slash_app. destruct fuel as [|fuel']; simpl; lia.
Qed.

(** X5. Every key [Get] probes is a prefix of the path, and there are
    no more probes than separators in the path, plus one. *)
Theorem probes_prefixes_bounded (path : string) :
  Forall (λ k, HasPrefix path k = true) (probes path) ∧
  (length (probes path) ≤ count_slash path + 1)%nat.
Proof. split; [apply truncations_prefix|apply truncations_length]. Qed.

(** X6. Registering a pattern whose prefix is not a probe of a path, in
    particular one whose prefix is not a prefix of the path, does not
    change what [Get] returns for the path. *)
Theorem Add_other_prefix {Fn : Type} (r : Routes Fn) (p : string)
    (h : Handler Fn) (path : string) :
  HasPrefix path (pattern_parts p).1 = false ∨ (pattern_parts p).1 ∉ probes path →
  Get (Add r p h) path = Get r path.
Proof.
  intros Hp.
  assert (Hnot : (pattern_parts p).1 ∉ probes path).
  { destruct Hp as [Hp|Hp]; [|done]. intros Hin.
    pose proof (truncations_prefix (S (String.length path)) path) as Hall.
    rewrite Forall_forall in Hall. specialize (Hall _ Hin). congruence. }
  rewrite !Get_probes. rewrite (first_bucket_ext (Add r p h) r); [done|].
  intros k Hk. apply roots_Add_ne. by intros ->.
Qed.

Lemma Add_other_prefix_witness :
  Get (Add table_users "/posts/:id" h2) "/users/42" = Get table_users "/users/42" ∧
  Get (Add table_users "/use" h2) "/users/42" = Get table_users "/users/42".
Proof.
  split.
  - apply Add_other_prefix. left. reflexivity.
  - apply Add_other_prefix. right. vm_compute.
    intros H. repeat (apply elem_of_cons in H as [H|H]; [discriminate H|]).
    by apply elem_of_nil in H.
Defined.

(** X7. Registrations under different prefixes commute: the table does
    not depend on the order of two calls of [Add] whose patterns have
    different prefixes. *)
Theorem Add_commute {Fn : Type} (r : Routes Fn) (p1 p2 : string)
    (ha hb : Handler Fn) :
  (pattern_parts p1).1 ≠ (pattern_parts p2).1 →
  Add (Add r p1 ha) p2 hb = Add (Add r p2 hb) p1 ha.
Proof.
  intros Hne. unfold Add.
  destruct (pattern_parts p1) as [k1 v1], (pattern_parts p2) as [k2 v2].
  simpl in Hne. unfold bucket. cbn [roots]. f_equal.
  rewrite !lookup_insert_ne by done. by apply insert_insert_ne.
Qed.

Lemma Add_commute_witness :
  Add (Add NewRoutes "/users/:id" h1) "/posts/:id" h2
    = Add (Add NewRoutes "/posts/:id" h2) "/users/:id" h1.
Proof. apply Add_commute. discriminate. Defined.

(** X8. [Add] only adds: the entries of the table after [Add] are the
    entries it had and the new one, and the keys are the keys it had and
    the prefix of the pattern. *)
Theorem registered_Add {Fn : Type} (r : Routes Fn) (p : string)
    (h : Handler Fn) (e : Route Fn) (k : string) :
  (registered (Add r p h) e ↔
   registered r e ∨ e = mkRoute (pattern_parts p).1 (pattern_parts p).2 h) ∧
  (is_Some (roots (Add r p h) !! k) ↔
   is_Some (roots r !! k) ∨ k = (pattern_parts p).1).
Proof.
  split.
  - split.
    + intros (k' & routes & Hk & He).
      destruct (decide (k' = (pattern_parts p).1)) as [->|Hne].
      * rewrite roots_Add_eq in Hk. simplify_eq.
        apply elem_of_app in He as [He|He].
        -- left. unfold bucket in He.
           destruct (roots r !! (pattern_parts p).1) as [old|] eqn:E; simpl in He.
           ++ by exists (pattern_parts p).1, old.
           ++ by apply elem_of_nil in He.
        -- right. by apply list_elem_of_singleton in He.
      * rewrite roots_Add_ne in Hk by done. left. by exists k', routes.
    + intros [(k' & routes & Hk & He)| ->].
      * destruct (decide (k' = (pattern_parts p).1)) as [->|Hne].
        -- eexists _, _. split; [apply roots_Add_eq|].
           apply elem_of_app. left. unfold bucket. by rewrite Hk.
        -- exists k', routes. by rewrite roots_Add_ne.
      * eexists _, _. split; [apply roots_Add_eq|].
        apply elem_of_app. right. left.
  - rewrite roots_Add, lookup_insert_is_Some'. naive_solver.
Qed.

(** ** Resolution below a registered prefix *)

Lemma truncate_below root rest :
  root ≠ "" →
  truncate (root +:+ "/" +:+ rest) =
    Some (if 0 <=? LastIndex rest slash
          then root +:+ "/" +:+ take (Z.to_nat (LastIndex rest slash)) rest
          else root).
Proof.
  intros Hroot. unfold truncate.
  assert (Hlen : (0 < String.length root)%nat) by (destruct root; [done|simpl; lia]).
  rewrite length_app_string, append_cons. cbn [String.length].
  destruct (Z.ltb_spec (Z.of_nat (String.length root + S (String.length ("" +:+ rest)))) 2);
    [lia|].
  rewrite <- append_cons, LastIndex_app_slash.
  pose proof (LastIndex_bounds rest slash) as Hb.
  destruct (Z.leb_spec 0 (LastIndex rest slash)) as [Hi|Hi].
  - destruct (Z.ltb_spec (Z.of_nat (String.length root) + 1 + LastIndex rest slash) 0);
      [lia|].
    destruct (Z.ltb_spec 0 (Z.of_nat (String.length root) + 1 + LastIndex rest slash));
      [|lia].
    replace (Z.to_nat (Z.of_nat (String.length root) + 1 + LastIndex rest slash))
      with (String.length root + S (Z.to_nat (LastIndex rest slash)))%nat by lia.
    by rewrite take_app_more.
  - destruct (Z.ltb_spec (Z.of_nat (String.length root)) 0); [lia|].
    destruct (Z.ltb_spec 0 (Z.of_nat (String.length root))); [|lia].
    by rewrite Nat2Z.id, take_app.
Qed.

Lemma first_bucket_below {Fn : Type} (r : Routes Fn) root routes rest fuel :
  root ≠ "" →
  roots r !! root = Some routes →
  (∀ rest', HasPrefix rest rest' = true →
            roots r !! (root +:+ "/" +:+ rest') = None) →
  (String.length rest + 1 < fuel)%nat →
  first_bucket r (truncations fuel (root +:+ "/" +:+ rest)) = Some routes.
Proof.
  intros Hroot Hk. revert rest.
  induction fuel as [|fuel IH]; intros rest Hnone Hfuel; [lia|].
  cbn [truncations first_bucket].
  rewrite (Hnone rest (HasPrefix_refl rest)), truncate_below by done.
  pose proof (LastIndex_bounds rest slash) as Hb.
  destruct (Z.leb_spec 0 (LastIndex rest slash)) as [Hi|Hi].
  - apply IH.
    + intros rest' Hrest'. apply Hnone.
      eapply HasPrefix_trans; [apply HasPrefix_take|done].
    + rewrite take_length; lia.
  - destruct fuel as [|fuel']; [lia|]. cbn [truncations first_bucket].
    by rewrite Hk.
Qed.

Lemma Get_below {Fn : Type} (r : Routes Fn) (root rest : string)
    (routes : list (Route Fn)) :
  root ≠ "" →
  roots r !! root = Some routes →
  (∀ rest', HasPrefix rest rest' = true →
            roots r !! (root +:+ "/" +:+ rest') = None) →
  Get r (root +:+ "/" +:+ rest) = matchRoutes (root +:+ "/" +:+ rest) routes.
Proof.
  intros Hroot Hk Hnone. rewrite Get_probes. unfold probes.
  rewrite (first_bucket_below r root routes rest); [done..|].
  rewrite !length_app_string. cbn [String.length]. lia.
Qed.

Lemma raw_tokens_below root rest :
  raw_tokens (root +:+ "/" +:+ rest) root = Split rest slash.
Proof. unfold raw_tokens. by rewrite TrimPrefix_app, (TrimPrefix_app "/" rest). Qed.

(** X9. Prefix fallback from any depth: when a non-empty [root] is a
    bucket key and no bucket key has the form [root/rest'] with [rest']
    a prefix of [rest], [Get] resolves the path [root/rest] in the
    bucket of [root], and the raw tokens of an entry of that prefix are
    the tokens of [rest]. *)
Theorem prefix_fallback_reaches {Fn : Type} (r : Routes Fn)
    (root rest : string) (routes : list (Route Fn)) :
  root ≠ "" →
  roots r !! root = Some routes →
  (∀ rest', HasPrefix rest rest' = true →
            roots r !! (root +:+ "/" +:+ rest') = None) →
  Get r (root +:+ "/" +:+ rest) = matchRoutes (root +:+ "/" +:+ rest) routes ∧
  raw_tokens (root +:+ "/" +:+ rest) root = Split rest slash.
Proof.
  intros Hroot Hk Hnone. split; [by apply Get_below|apply raw_tokens_below].
Qed.

Lemma single_key_below {Fn : Type} (p : string) (h : Handler Fn) rest :
  roots (Add NewRoutes p h) !! ((pattern_parts p).1 +:+ "/" +:+ rest) = None.
Proof.
  rewrite roots_Add, lookup_insert_ne; [apply lookup_empty|].
  intros E. apply (f_equal String.length) in E.
  rewrite !length_app_string in E. cbn [String.length] in E. lia.
Qed.

Lemma prefix_fallback_reaches_witness :
  Get table_users ("/users" +:+ "/" +:+ "42/x")
    = matchRoutes ("/users" +:+ "/" +:+ "42/x") (bucket table_users "/users") ∧
  raw_tokens ("/users" +:+ "/" +:+ "42/x") "/users" = Split "42/x" slash.
Proof.
  apply (prefix_fallback_reaches table_users "/users" "42/x").
  - discriminate.
  - reflexivity.
  - intros rest' _. apply (single_key_below "/users/:id" h1 rest').
Defined.

(** ** Tables of one route *)

Lemma pattern_parts_one_param root nm :
  no_param_token root = true → no_slash nm = true →
  pattern_parts (root +:+ "/" +:+ ":" +:+ nm) = (root, [mkParam nm false]).
Proof.
  intros Hroot Hnm. unfold pattern_parts.
  assert (Hs : no_slash (":" +:+ nm) = true) by exact Hnm.
  rewrite Split_app_slash, (no_slash_Split _ Hs), fold_left_app.
  rewrite Add_step_no_param by exact Hroot.
  cbn [fold_left app]. rewrite Add_step_first.
  assert (Hp : HasPrefix (":" +:+ nm) ":" = true) by apply (HasPrefix_app ":" nm).
  rewrite Hp. unfold segment_of. rewrite Hp, (TrimPrefix_app ":" nm).
  by rewrite Join_Split.
Qed.

Section OneRoute.

Context {Fn : Type}.
Implicit Types (h : Handler Fn).

(** A table with one route resolves every path below the prefix of the
    route against that route. *)
Lemma Get_one_route_below p h rest :
  (pattern_parts p).1 ≠ "" →
  Get (Add NewRoutes p h) ((pattern_parts p).1 +:+ "/" +:+ rest) =
    matchRoutes ((pattern_parts p).1 +:+ "/" +:+ rest)
      [mkRoute (pattern_parts p).1 (pattern_parts p).2 h].
Proof.
  intros Hroot. apply Get_below; [done| |].
  - rewrite roots_Add_eq. unfold bucket. simpl. by rewrite lookup_empty.
  - intros rest' _. apply single_key_below.
Qed.

Lemma Get_one_param_below root nm h rest :
  no_param_token root = true → root ≠ "" → no_slash nm = true →
  Get (Add NewRoutes (root +:+ "/" +:+ ":" +:+ nm) h) (root +:+ "/" +:+ rest) =
    if Nat.eqb (length (cleanArray (Split rest slash))) 1
    then Returns (h, Some {[ nm := default "" (head (Split rest slash)) ]}, true)
    else Returns notFound.
Proof.
  intros Hroot Hne Hnm.
  pose proof (Get_one_route_below (root +:+ "/" +:+ ":" +:+ nm) h rest) as Hget.
  rewrite (pattern_parts_one_param root nm Hroot Hnm) in Hget.
  cbn [fst snd] in Hget. rewrite (Hget Hne).
  cbn [matchRoutes prefix partNames function]. rewrite raw_tokens_below.
  cbn [length matchParts fixed name].
  destruct (Nat.eqb_spec (length (cleanArray (Split rest slash))) 1) as [Hlen|];
    [|done].
  destruct (Split rest slash) as [|tok toks] eqn:E; [done|].
  cbn [lookup list_lookup head default]. by rewrite insert_empty.
Qed.

Lemma Get_static_below p h rest :
  no_param_token p = true → p ≠ "" →
  Get (Add NewRoutes p h) (p +:+ "/" +:+ rest) =
    match cleanArray (Split rest slash) with
    | [] => Returns (h, Some ∅, true)
    | _ :: _ => Returns notFound
    end.
Proof.
  intros Hp Hne.
  pose proof (Get_one_route_below p h rest) as Hget.
  rewrite (pattern_parts_no_param p Hp) in Hget. cbn [fst snd] in Hget.
  rewrite (Hget Hne).
  cbn [matchRoutes prefix partNames function]. rewrite raw_tokens_below.
  by destruct (cleanArray (Split rest slash)).
Qed.

End OneRoute.

(** X10. A route [root/:name] alone in the table, for a path [root/rest]:
    it is found exactly when [rest] has one non-empty token, and the
    value captured is then the first raw token of [rest], empty tokens
    counted. *)
Theorem param_route_below {Fn : Type} (root nm : string) (h : Handler Fn)
    (rest : string) :
  no_param_token root = true → root ≠ "" → no_slash nm = true →
  Get (Add NewRoutes (root +:+ "/" +:+ ":" +:+ nm) h) (root +:+ "/" +:+ rest) =
    if Nat.eqb (length (cleanArray (Split rest slash))) 1
    then Returns (h, Some {[ nm := default "" (head (Split rest slash)) ]}, true)
    else Returns notFound.
Proof. apply Get_one_param_below. Qed.

Lemma param_route_below_witness :
  Get (Add NewRoutes ("/users" +:+ "/" +:+ ":" +:+ "id") h1)
      ("/users" +:+ "/" +:+ "42")
  = Returns (h1, Some {[ "id" := "42" ]}, true).
Proof.
  apply (param_route_below "/users" "id" h1 "42"); [reflexivity|discriminate|reflexivity].
Defined.

Lemma cleanArray_singleton tok : tok ≠ "" → cleanArray [tok] = [tok].
Proof. intros Htok. simpl. by destruct (String.eqb_spec tok ""). Qed.

(** X11. The cases of a route [root/:name] alone in the table, for a
    non-empty token without separator: [root/tok] captures the token;
    so does [root/tok/], with a trailing separator; [root//tok], with a
    doubled separator, is found and captures the empty string; and
    [root/tok/more] is not found. *)
Theorem param_route_cases {Fn : Type} (root nm : string) (h : Handler Fn)
    (tok more : string) :
  no_param_token root = true → root ≠ "" → no_slash nm = true →
  no_slash tok = true → tok ≠ "" → no_slash more = true → more ≠ "" →
  let table := Add NewRoutes (root +:+ "/" +:+ ":" +:+ nm) h in
  Get table (root +:+ "/" +:+ tok) = Returns (h, Some {[ nm := tok ]}, true) ∧
  Get table (root +:+ "/" +:+ tok +:+ "/") = Returns (h, Some {[ nm := tok ]}, true) ∧
  Get table (root +:+ "/" +:+ "/" +:+ tok) = Returns (h, Some {[ nm := "" ]}, true) ∧
  Get table (root +:+ "/" +:+ tok +:+ "/" +:+ more) = Returns (None, None, false).
Proof.
  intros Hroot Hne Hnm Htok Htok' Hmore Hmore' table. subst table.
  rewrite !Get_one_param_below by done.
  change (tok +:+ "/") with (tok +:+ "/" +:+ "").
  change ("/" +:+ tok) with ("" +:+ "/" +:+ tok).
  rewrite !Split_app_slash, !no_slash_Split by done.
  change (Split "" slash) with [""]. cbn [app cleanArray String.eqb].
  destruct (String.eqb_spec tok "") as [|_]; [done|].
  destruct (String.eqb_spec more "") as [|_]; [done|].
  done.
Qed.

Lemma param_route_cases_witness :
  let table := Add NewRoutes ("/users" +:+ "/" +:+ ":" +:+ "id") h1 in
  Get table ("/users" +:+ "/" +:+ "42") = Returns (h1, Some {[ "id" := "42" ]}, true) ∧
  Get table ("/users" +:+ "/" +:+ "42" +:+ "/") = Returns (h1, Some {[ "id" := "42" ]}, true) ∧
  Get table ("/users" +:+ "/" +:+ "/" +:+ "42") = Returns (h1, Some {[ "id" := "" ]}, true) ∧
  Get table ("/users" +:+ "/" +:+ "42" +:+ "/" +:+ "posts") = Returns (None, None, false).
Proof.
  apply (param_route_cases "/users" "id" h1 "42" "posts");
    first [reflexivity|discriminate].
Defined.

(** X12. A static route alone in the table, for a path below it: the
    route answers its own path followed by separators only, with an
    empty parameter map, and no path with a further non-empty token. *)
Theorem static_route_below {Fn : Type} (p : string) (h : Handler Fn)
    (rest : string) :
  no_param_token p = true → p ≠ "" →
  Get (Add NewRoutes p h) (p +:+ "/" +:+ rest) =
    match cleanArray (Split rest slash) with
    | [] => Returns (h, Some ∅, true)
    | _ :: _ => Returns (None, None, false)
    end.
Proof. apply Get_static_below. Qed.

Lemma static_route_below_witness :
  Get table_static ("/a" +:+ "/" +:+ "/") = Returns (h1, Some ∅, true) ∧
  Get table_static ("/a" +:+ "/" +:+ "anything/at/all") = Returns (None, None, false).
Proof.
  split.
  - apply (static_route_below "/a" h1 "/"); [reflexivity|discriminate].
  - apply (static_route_below "/a" h1 "anything/at/all"); [reflexivity|discriminate].
Defined.

(** * Properties of the application object *)

Section AppProperties.

Context {Fn V ConfigT PluginsT : Type}.
Implicit Types (m : App.minima Fn V ConfigT PluginsT) (rt : App.Router Fn).
Implicit Types (table : Routes Fn) (value : option V).

Lemma Get_no_entry table path :
  (∀ e, registered table e → ¬ satisfies path e) →
  Get table path = Returns notFound.
Proof.
  intros Hnone. rewrite Get_probes.
  destruct (first_bucket table (probes path)) as [routes|] eqn:Hb; [|done].
  rewrite matchRoutes_first_match.
  destruct (first_match path routes) as [e|] eqn:Hm; [|done].
  apply first_match_Some in Hm as (pre & post & -> & He & _).
  apply first_bucket_Some in Hb as (k & _ & Hk).
  destruct (Hnone e).
  - exists k, (pre ++ e :: post). split; [done|]. apply elem_of_app. right. left.
  - by apply entry_matches_satisfies.
Qed.

Lemma Get_returns table path :
  ∃ h mo found, Get table path = Returns (h, mo, found).
Proof.
  rewrite Get_probes. destruct (first_bucket table (probes path)) as [routes|].
  - destruct (matchRoutes_returns path routes) as [[[h mo] f] ->]. eauto.
  - unfold notFound. eauto.
Qed.

End AppProperties.

(** X13. The properties of an instance made by [New] are the nil map:
    [GetProp] gives nil for every key and [SetProp] panics for every
    key and value; in general [SetProp] panics exactly on the nil map. *)
Theorem properties_after_New {Fn V ConfigT PluginsT : Type}
    (rt : App.Router Fn) (cfg : ConfigT) (plugins : PluginsT)
    (m : App.minima Fn V ConfigT PluginsT) (key : string) (value : option V) :
  App.GetProp (App.New (V:=V) rt cfg plugins) key = None ∧
  App.SetProp (App.New rt cfg plugins) key value = Panics ∧
  (App.SetProp m key value = Panics ↔ App.properties m = None).
Proof.
  split_and!; [done..|]. unfold App.SetProp.
  destruct (App.properties m); split; done.
Qed.

(** X14. On an instance whose properties map is not nil, [SetProp]
    returns, [GetProp] then gives the value for the key and what it gave
    before for every other key, and no other field has changed. *)
Theorem SetProp_GetProp {Fn V ConfigT PluginsT : Type}
    (m : App.minima Fn V ConfigT PluginsT) (key : string) (value : option V) :
  App.properties m ≠ None →
  ∃ m', App.SetProp m key value = Returns m' ∧
        App.GetProp m' key = value ∧
        (∀ k, k ≠ key → App.GetProp m' k = App.GetProp m k) ∧
        App.started m' = App.started m ∧ App.server m' = App.server m ∧
        App.router m' = App.router m ∧ App.drain m' = App.drain m.
Proof.
  intros Hprops. unfold App.SetProp, App.GetProp.
  destruct (App.properties m) as [props|] eqn:E; [|done].
  eexists. split; [done|]. cbn. split_and!; [|intros k Hk|done..].
  - by rewrite lookup_insert_eq.
  - by rewrite lookup_insert_ne.
Qed.

Lemma SetProp_GetProp_witness :
  ∃ m', App.SetProp
          (App.mkMinima (Fn:=nat) (V:=nat) None false 0 (App.mkRouter ∅ None)
             (Some ∅) tt tt 0) "name" (Some 7%nat) = Returns m' ∧
        App.GetProp m' "name" = Some 7%nat ∧
        (∀ k, k ≠ "name" → App.GetProp m' k
           = App.GetProp (App.mkMinima (Fn:=nat) (V:=nat) None false 0
                            (App.mkRouter ∅ None) (Some ∅) tt tt 0) k) ∧
        App.started m' = false ∧ App.server m' = None ∧
        App.router m' = App.mkRouter ∅ None ∧ App.drain m' = 0.
Proof.
  apply (SetProp_GetProp
           (App.mkMinima (Fn:=nat) (V:=nat) None false 0 (App.mkRouter ∅ None)
              (Some ∅) tt tt 0) "name" (Some 7%nat)).
  discriminate.
Defined.

(** X15. An instance listens once: [Listen] on an instance made by [New]
    gets to [ListenAndServe] and returns its error, with the instance
    marked as started at the address; on every instance on which
    [Listen] has returned, whatever the error, a further [Listen]
    panics, also after [ShutdownTimeout] or [SetProp]. *)
Theorem Listen_once {Fn V ConfigT PluginsT E : Type}
    (rt : App.Router Fn) (cfg : ConfigT) (plugins : PluginsT)
    (m m' : App.minima Fn V ConfigT PluginsT)
    (addr addr' : string) (served served' : E) (err : E) (t : Z)
    (key : string) (value : option V) :
  (∃ m1, App.Listen (App.New (V:=V) rt cfg plugins) addr served = Returns (served, m1) ∧
         App.started m1 = true ∧ App.server m1 = Some addr) ∧
  (App.Listen m addr served = Returns (err, m') →
   err = served ∧
   App.Listen m' addr' served' = Panics ∧
   App.Listen (App.ShutdownTimeout m' t) addr' served' = Panics ∧
   ∀ m'', App.SetProp m' key value = Returns m'' →
          App.Listen m'' addr' served' = Panics).
Proof.
  split; [by eexists|].
  unfold App.Listen. destruct (App.started m); [done|].
  intros [= <- <-]. cbn. split_and!; [done..|].
  intros m''. unfold App.SetProp. cbn.
  destruct (App.properties m); [|done]. by intros [= <-].
Qed.

Lemma Listen_once_witness :
  App.Listen
    (App.mkMinima (Fn:=nat) (V:=nat) (Some ":3000") true 0
       (App.mkRouter ∅ None) None tt tt 0) ":4000" 2%nat = Panics.
Proof.
  destruct (Listen_once (V:=nat) (App.mkRouter (Fn:=nat) ∅ None) tt tt
              (App.New (App.mkRouter ∅ None) tt tt)
              (App.mkMinima (Some ":3000") true 0 (App.mkRouter ∅ None) None tt tt 0)
              ":3000" ":4000" 1%nat 2%nat 1%nat 5 "k" None) as [_ Hagain].
  destruct (Hagain eq_refl) as (_ & Hpanic & _). exact Hpanic.
Defined.

(** X16. [ServeHTTP] calls a handler only as registered: when the trace
    has a call of a handler, the method has a table, the handler is the
    one of an entry of that table that satisfies the path, the
    parameters are the captures of that entry, the form was parsed, and
    the plug-ins ran just before the handler. *)
Theorem ServeHTTP_calls_registered {Fn V ConfigT PluginsT : Type}
    (m : App.minima Fn V ConfigT PluginsT) (method path : string)
    (form_ok : bool) (fn : Fn) (params : option (gmap string string)) :
  App.CallHandler fn params ∈ (App.ServeHTTP m method path form_ok).1 →
  ∃ table e,
    App.routes (App.router m) !! method = Some table ∧
    registered table e ∧ satisfies path e ∧ function e = Some fn ∧
    params = Some (entry_captures path e) ∧ form_ok = true ∧
    App.ServeHTTP m method path form_ok =
      ([App.ParseForm; App.MakeResponse; App.MakeRequest;
        App.ServePlugin params; App.CallHandler fn params], Returns tt).
Proof.
  unfold App.ServeHTTP.
  destruct (App.routes (App.router m) !! method) as [table|] eqn:Ht;
    [|by intros ?%elem_of_nil].
  destruct (Get table path) as [[[f mo] found]| |] eqn:Hget;
    [|by intros ?%elem_of_nil..].
  destruct found.
  - apply Get_found_entry in Hget as (e & Hreg & Hsat & Hfun & ->).
    destruct form_ok, f as [fn'|]; cbn [fst]; intros Hin;
      repeat (apply elem_of_cons in Hin as [Hin|Hin]; [try discriminate Hin|]);
      try (by apply elem_of_nil in Hin).
    injection Hin as -> ->. by exists table, e.
  - destruct (App.notfound (App.router m)); cbn [fst]; intros Hin;
      repeat (apply elem_of_cons in Hin as [Hin|Hin]; [discriminate Hin|]);
      by apply elem_of_nil in Hin.
Qed.

Lemma ServeHTTP_calls_registered_witness :
  ∃ table e,
    ({[ "GET" := table_users ]} : gmap string (Routes nat)) !! "GET" = Some table ∧
    registered table e ∧ satisfies "/users/42" e ∧ function e = Some 1%nat ∧
    Some ({[ "id" := "42" ]} : gmap string string)
      = Some (entry_captures "/users/42" e) ∧ true = true ∧
    App.ServeHTTP
      (App.New (V:=nat) (App.mkRouter {[ "GET" := table_users ]} None) tt tt)
      "GET" "/users/42" true =
      ([App.ParseForm; App.MakeResponse; App.MakeRequest;
        App.ServePlugin (Some {[ "id" := "42" ]});
        App.CallHandler 1%nat (Some {[ "id" := "42" ]})], Returns tt).
Proof.
  refine (ServeHTTP_calls_registered
            (App.New (V:=nat) (App.mkRouter {[ "GET" := table_users ]} None) tt tt)
            "GET" "/users/42" true 1%nat (Some {[ "id" := "42" ]}) _).
  vm_compute. do 4 right. left.
Defined.

(** * Properties of the response headers *)

Section HeaderProperties.

Import OutgoingHeader.
Variable canonical : string → string.
Implicit Types (h : response) (key value : string).

Lemma GetHeader_SetHeader h key value key' :
  GetHeader canonical (SetHeader canonical h key value) key' =
    if decide (canonical key' = canonical key) then value
    else GetHeader canonical h key'.
Proof.
  unfold GetHeader, SetHeader. cbn [header].
  destruct (decide (canonical key' = canonical key)) as [->|Hne].
  - by rewrite lookup_insert_eq.
  - by rewrite lookup_insert_ne.
Qed.

Lemma GetHeader_DelHeader h key key' :
  GetHeader canonical (DelHeader canonical h key) key' =
    if decide (canonical key' = canonical key) then ""
    else GetHeader canonical h key'.
Proof.
  unfold GetHeader, DelHeader. cbn [header].
  destruct (decide (canonical key' = canonical key)) as [->|Hne].
  - by rewrite lookup_delete_eq.
  - by rewrite lookup_delete_ne.
Qed.

End HeaderProperties.

(** X19. Headers are kept under their canonical key: after [Set] the
    value is read back under every key of the same canonical form, and
    it has replaced the values the key had; after [Del] the key reads as
    the empty string; keys of another canonical form read as before. *)
Theorem header_Set_Get_Del (canonical : string → string)
    (h : OutgoingHeader.response) (key value key' : string) :
  (canonical key' = canonical key →
   OutgoingHeader.GetHeader canonical
     (OutgoingHeader.SetHeader canonical h key value) key' = value ∧
   OutgoingHeader.header (OutgoingHeader.SetHeader canonical h key value)
     !! canonical key' = Some [value] ∧
   OutgoingHeader.GetHeader canonical
     (OutgoingHeader.DelHeader canonical h key) key' = "") ∧
  (canonical key' ≠ canonical key →
   OutgoingHeader.GetHeader canonical
     (OutgoingHeader.SetHeader canonical h key value) key'
     = OutgoingHeader.GetHeader canonical h key' ∧
   OutgoingHeader.GetHeader canonical
     (OutgoingHeader.DelHeader canonical h key) key'
     = OutgoingHeader.GetHeader canonical h key').
Proof.
  rewrite GetHeader_SetHeader, GetHeader_DelHeader. split.
  - intros Heq. rewrite !decide_True by done. split_and!; [done| |done].
    unfold OutgoingHeader.SetHeader. cbn [OutgoingHeader.header].
    by rewrite Heq, lookup_insert_eq.
  - intros Hne. by rewrite !decide_False by done.
Qed.

Lemma header_Set_Get_Del_witness :
  OutgoingHeader.GetHeader id
    (OutgoingHeader.SetHeader id (OutgoingHeader.mkResponse ∅ false 0)
       "Content-Type" "text/plain") "Content-Type" = "text/plain" ∧
  OutgoingHeader.GetHeader id
    (OutgoingHeader.SetHeader id (OutgoingHeader.mkResponse ∅ false 0)
       "Content-Type" "text/plain") "Etag"
  = OutgoingHeader.GetHeader id (OutgoingHeader.mkResponse ∅ false 0) "Etag".
Proof.
  destruct (header_Set_Get_Del id (OutgoingHeader.mkResponse ∅ false 0)
              "Content-Type" "text/plain" "Content-Type") as [Hsame _].
  destruct (header_Set_Get_Del id (OutgoingHeader.mkResponse ∅ false 0)
              "Content-Type" "text/plain" "Etag") as [_ Hother].
  split.
  - by destruct (Hsame eq_refl).
  - apply Hother. discriminate.
Defined.

(** X20. [Flush] returns true and leaves a response whose Content-Type
    is not empty: a Content-Type that is not empty is kept, with all the
    headers, and otherwise the header is set to
    ["text/html;charset=utf-8"]; no other header changes, and the writer
    is flushed once exactly when it is a flusher. *)
Theorem Flush_content_type (canonical : string → string)
    (h : OutgoingHeader.response) (key : string) :
  (OutgoingHeader.Flush canonical h).1 = true ∧
  OutgoingHeader.GetHeader canonical (OutgoingHeader.Flush canonical h).2
    "Content-Type" =
    (if String.eqb (OutgoingHeader.GetHeader canonical h "Content-Type") ""
     then "text/html;charset=utf-8"
     else OutgoingHeader.GetHeader canonical h "Content-Type") ∧
  OutgoingHeader.GetHeader canonical (OutgoingHeader.Flush canonical h).2
    "Content-Type" ≠ "" ∧
  (OutgoingHeader.GetHeader canonical h "Content-Type" ≠ "" →
   OutgoingHeader.header (OutgoingHeader.Flush canonical h).2
     = OutgoingHeader.header h) ∧
  (canonical key ≠ canonical "Content-Type" →
   OutgoingHeader.GetHeader canonical (OutgoingHeader.Flush canonical h).2 key
     = OutgoingHeader.GetHeader canonical h key) ∧
  OutgoingHeader.flushed (OutgoingHeader.Flush canonical h).2 =
    ((if OutgoingHeader.flusher h then 1 else 0) + OutgoingHeader.flushed h)%nat.
Proof.
  assert (Hget : ∀ h' k,
    OutgoingHeader.GetHeader canonical
      (if OutgoingHeader.flusher h'
       then OutgoingHeader.mkResponse (OutgoingHeader.header h')
              (OutgoingHeader.flusher h') (S (OutgoingHeader.flushed h'))
       else h') k = OutgoingHeader.GetHeader canonical h' k).
  { intros h' k. by destruct (OutgoingHeader.flusher h'). }
  unfold OutgoingHeader.Flush. cbn [fst snd]. rewrite !Hget.
  destruct (String.eqb_spec (OutgoingHeader.GetHeader canonical h "Content-Type") "")
    as [Hempty|Hset].
  - rewrite !GetHeader_SetHeader, decide_True by done.
    split_and!; [done..| | |].
    + by intros [].
    + intros Hne. by rewrite decide_False.
    + cbn. by destruct (OutgoingHeader.flusher h).
  - split_and!; [done..| | |].
    + intros _. by destruct (OutgoingHeader.flusher h).
    + done.
    + by destruct (OutgoingHeader.flusher h).
Qed.

Lemma Flush_content_type_witness :
  OutgoingHeader.header
    (OutgoingHeader.Flush id
       (OutgoingHeader.mkResponse {[ "Content-Type" := ["application/json"] ]}
          true 0)).2
  = {[ "Content-Type" := ["application/json"] ]} ∧
  OutgoingHeader.GetHeader id
    (OutgoingHeader.Flush id
       (OutgoingHeader.mkResponse {[ "Content-Type" := ["application/json"] ]}
          true 0)).2 "Etag"
  = OutgoingHeader.GetHeader id
      (OutgoingHeader.mkResponse {[ "Content-Type" := ["application/json"] ]}
         true 0) "Etag".
Proof.
  destruct (Flush_content_type id
              (OutgoingHeader.mkResponse {[ "Content-Type" := ["application/json"] ]}
                 true 0) "Etag") as (_ & _ & _ & Hkeep & Hother & _).
  split.
  - apply Hkeep. vm_compute. discriminate.
  - apply Hother. discriminate.
Defined.

(** X21. [BaseHeaders] sets the two headers (given that their canonical
    keys differ), doing it again changes nothing, and [Setlength] sets
    the header of the length. *)
Theorem BaseHeaders_sets (canonical : string → string)
    (h : OutgoingHeader.response) (len : string) :
  (canonical "transfer-encoding" ≠ canonical "connection" →
   OutgoingHeader.GetHeader canonical (OutgoingHeader.BaseHeaders canonical h)
     "transfer-encoding" = "chunked" ∧
   OutgoingHeader.GetHeader canonical (OutgoingHeader.BaseHeaders canonical h)
     "connection" = "keep-alive") ∧
  OutgoingHeader.BaseHeaders canonical (OutgoingHeader.BaseHeaders canonical h)
    = OutgoingHeader.BaseHeaders canonical h ∧
  OutgoingHeader.GetHeader canonical (OutgoingHeader.Setlength canonical h len)
    "Content-length" = len.
Proof.
  split_and!.
  - intros Hne. unfold OutgoingHeader.BaseHeaders.
    rewrite !GetHeader_SetHeader.
    rewrite decide_False by done. by rewrite !decide_True by done.
  - unfold OutgoingHeader.BaseHeaders, OutgoingHeader.SetHeader.
    cbn [OutgoingHeader.header OutgoingHeader.flusher OutgoingHeader.flushed].
    f_equal.
    destruct (decide (canonical "transfer-encoding" = canonical "connection"))
      as [->|Hne].
    + by rewrite !insert_insert_eq.
    + rewrite (insert_insert_ne _ (canonical "transfer-encoding")
                 (canonical "connection")) by done.
      by rewrite !insert_insert_eq.
  - unfold OutgoingHeader.Setlength. rewrite GetHeader_SetHeader.
    by rewrite decide_True.
Qed.

Lemma BaseHeaders_sets_witness :
  OutgoingHeader.GetHeader id
    (OutgoingHeader.BaseHeaders id (OutgoingHeader.mkResponse ∅ false 0))
    "transfer-encoding" = "chunked" ∧
  OutgoingHeader.GetHeader id
    (OutgoingHeader.BaseHeaders id (OutgoingHeader.mkResponse ∅ false 0))
    "connection" = "keep-alive".
Proof.
  destruct (BaseHeaders_sets id (OutgoingHeader.mkResponse ∅ false 0) "0")
    as [Hboth _].
  apply Hboth. discriminate.
Defined.

(** * A static route below a parametrized one *)

Lemma cleanArray_pair a b : a ≠ "" → b ≠ "" → cleanArray [a; b] = [a; b].
Proof.
  intros Ha Hb. simpl.
  destruct (String.eqb_spec a ""); [done|]. by destruct (String.eqb_spec b "").
Qed.

Lemma pattern_parts_two_params root a b :
  no_param_token root = true → no_slash a = true → no_slash b = true →
  pattern_parts (root +:+ "/" +:+ ":" +:+ a +:+ "/" +:+ ":" +:+ b)
    = (root, [mkParam a false; mkParam b false]).
Proof.
  intros Hroot Ha Hb. unfold pattern_parts.
  assert (Hsa : no_slash (":" +:+ a) = true) by exact Ha.
  assert (Hsb : no_slash (":" +:+ b) = true) by exact Hb.
  rewrite Split_app_slash.
  change (":" +:+ a +:+ "/" +:+ ":" +:+ b) with ((":" +:+ a) +:+ "/" +:+ (":" +:+ b)).
  rewrite Split_app_slash, (no_slash_Split _ Hsa), (no_slash_Split _ Hsb).
  rewrite fold_left_app, Add_step_no_param by exact Hroot.
  cbn [fold_left app]. rewrite Add_step_first.
  assert (Hpa : HasPrefix (":" +:+ a) ":" = true) by apply (HasPrefix_app ":" a).
  assert (Hpb : HasPrefix (":" +:+ b) ":" = true) by apply (HasPrefix_app ":" b).
  rewrite Hpa, Add_step_found. unfold segment_of.
  rewrite Hpa, Hpb, (TrimPrefix_app ":" a), (TrimPrefix_app ":" b).
  by rewrite Join_Split.
Qed.

Lemma no_param_token_below root x :
  no_param_token root = true → no_slash x = true → HasPrefix x ":" = false →
  no_param_token (root +:+ "/" +:+ x) = true.
Proof.
  intros Hroot Hx Hcolon. unfold no_param_token in *.
  rewrite Split_app_slash, (no_slash_Split _ Hx), forallb_app, Hroot.
  simpl. by rewrite Hcolon.
Qed.

(** X22. A static route hides a parametrized one: with [root/:a/:b]
    alone in the table, the path [root/x/tok] resolves to its handler
    with [a = x] and [b = tok]; once the static route [root/x] is
    registered as well, the same path is not found, although the entry of
    [root/:a/:b] is still registered and still satisfies it. *)
Theorem static_route_hides {Fn : Type} (root a b x tok : string)
    (ha hb : Handler Fn) :
  no_param_token root = true → root ≠ "" →
  no_slash a = true → no_slash b = true →
  no_slash x = true → x ≠ "" → HasPrefix x ":" = false →
  no_slash tok = true → tok ≠ "" →
  let wide := root +:+ "/" +:+ ":" +:+ a +:+ "/" +:+ ":" +:+ b in
  let path := root +:+ "/" +:+ x +:+ "/" +:+ tok in
  let entry := mkRoute root [mkParam a false; mkParam b false] ha in
  Get (Add NewRoutes wide ha) path
    = Returns (ha, Some (<[b := tok]> {[ a := x ]}), true) ∧
  Get (Add (Add NewRoutes wide ha) (root +:+ "/" +:+ x) hb) path
    = Returns (None, None, false) ∧
  registered (Add (Add NewRoutes wide ha) (root +:+ "/" +:+ x) hb) entry ∧
  satisfies path entry.
Proof.
  intros Hroot Hne Ha Hb Hx Hxne Hcolon Htok Htokne. cbv zeta.
  pose proof (pattern_parts_two_params root a b Hroot Ha Hb) as Hwide.
  pose proof (pattern_parts_no_param _ (no_param_token_below root x Hroot Hx Hcolon))
    as Hnarrow.
  assert (Hlong : (String.length root < String.length (root +:+ "/" +:+ x))%nat).
  { rewrite !length_app_string. cbn [String.length]. lia. }
  assert (Hkeys : root +:+ "/" +:+ x ≠ root) by (intros E; rewrite E in Hlong; lia).
  assert (Htokens : raw_tokens (root +:+ "/" +:+ x +:+ "/" +:+ tok) root = [x; tok]).
  { by rewrite raw_tokens_below, Split_app_slash, !no_slash_Split. }
  assert (Hmatch : entry_matches (root +:+ "/" +:+ x +:+ "/" +:+ tok)
                     (mkRoute root [mkParam a false; mkParam b false] ha) = true).
  { unfold entry_matches. cbn [prefix partNames].
    by rewrite Htokens, cleanArray_pair. }
  split_and!.
  - pose proof (Get_one_route_below
                  (root +:+ "/" +:+ ":" +:+ a +:+ "/" +:+ ":" +:+ b) ha
                  (x +:+ "/" +:+ tok)) as Hget.
    rewrite Hwide in Hget. cbn [fst snd] in Hget.
    rewrite (Hget Hne), matchRoutes_first_match.
    cbn [first_match]. rewrite Hmatch.
    unfold entry_captures. cbn [prefix partNames function]. rewrite Htokens.
    cbn. by rewrite insert_empty.
  - change (root +:+ "/" +:+ x +:+ "/" +:+ tok)
      with (root +:+ ("/" +:+ x) +:+ "/" +:+ tok).
    rewrite <- (append_assoc root ("/" +:+ x) ("/" +:+ tok)).
    rewrite (Get_below _ (root +:+ "/" +:+ x) tok
               [mkRoute (root +:+ "/" +:+ x) [] hb]).
    + cbn [matchRoutes prefix partNames function].
      rewrite raw_tokens_below, no_slash_Split, cleanArray_singleton by done.
      done.
    + intros E. rewrite E in Hlong. simpl in Hlong. lia.
    + pose proof (roots_Add_eq
                    (Add NewRoutes (root +:+ "/" +:+ ":" +:+ a +:+ "/" +:+ ":" +:+ b) ha)
                    (root +:+ "/" +:+ x) hb) as Hk.
      rewrite Hnarrow in Hk. cbn [fst snd] in Hk. rewrite Hk. f_equal.
      unfold bucket. rewrite roots_Add_ne by (by rewrite Hwide).
      simpl. by rewrite lookup_empty.
    + intros rest' _.
      assert (Hlen : ∀ k, (String.length k ≤ String.length (root +:+ "/" +:+ x))%nat →
                (root +:+ "/" +:+ x) +:+ "/" +:+ rest' ≠ k).
      { intros k Hk E. rewrite <- E, !length_app_string in Hk.
        cbn [String.length] in Hk. lia. }
      rewrite roots_Add_ne by (rewrite Hnarrow; apply Hlen; cbn [fst]; lia).
      rewrite roots_Add_ne by (rewrite Hwide; apply Hlen; cbn [fst]; lia).
      apply lookup_empty.
  - exists root, [mkRoute root [mkParam a false; mkParam b false] ha].
    split; [|left].
    rewrite roots_Add_ne by (by rewrite Hnarrow).
    pose proof (roots_Add_eq NewRoutes
                  (root +:+ "/" +:+ ":" +:+ a +:+ "/" +:+ ":" +:+ b) ha) as Hk.
    rewrite Hwide in Hk. cbn [fst snd] in Hk. rewrite Hk.
    unfold bucket. simpl. by rewrite lookup_empty.
  - by apply entry_matches_satisfies.
Qed.

Lemma static_route_hides_witness :
  let wide := "/a" +:+ "/" +:+ ":" +:+ "x" +:+ "/" +:+ ":" +:+ "y" in
  let path := "/a" +:+ "/" +:+ "b" +:+ "/" +:+ "c" in
  let entry := mkRoute "/a" [mkParam "x" false; mkParam "y" false] h1 in
  Get (Add NewRoutes wide h1) path
    = Returns (h1, Some (<["y" := "c"]> {[ "x" := "b" ]}), true) ∧
  Get (Add (Add NewRoutes wide h1) ("/a" +:+ "/" +:+ "b") h2) path
    = Returns (None, None, false) ∧
  registered (Add (Add NewRoutes wide h1) ("/a" +:+ "/" +:+ "b") h2) entry ∧
  satisfies path entry.
Proof.
  apply (static_route_hides "/a" "x" "y" "b" "c" h1 h2);
    first [reflexivity|discriminate].
Defined.

(** * Registration order and frame *)

Section Frame.

Context {Fn : Type}.
Implicit Types (r : Routes Fn) (e : Route Fn) (h : Handler Fn).

Lemma roots_Add_old r p h old :
  roots r !! (pattern_parts p).1 = Some old →
  roots (Add r p h) !! (pattern_parts p).1 =
    Some (old ++ [mkRoute (pattern_parts p).1 (pattern_parts p).2 h]).
Proof. intros Hold. rewrite roots_Add_eq. unfold bucket. by rewrite Hold. Qed.

Lemma roots_Add_fresh r p h :
  roots r !! (pattern_parts p).1 = None →
  roots (Add r p h) !! (pattern_parts p).1 =
    Some [mkRoute (pattern_parts p).1 (pattern_parts p).2 h].
Proof. intros Hnew. rewrite roots_Add_eq. unfold bucket. by rewrite Hnew. Qed.

Lemma registered_kept r p h e : registered r e → registered (Add r p h) e.
Proof.
  intros (k & old & Hk & He).
  destruct (decide (k = (pattern_parts p).1)) as [->|Hne].
  - eexists _, _. split; [by apply roots_Add_old|]. apply elem_of_app. by left.
  - exists k, old. by rewrite roots_Add_ne.
Qed.

Lemma cleanArray_as_filter (a : list string) :
  cleanArray a = filter (λ s, s ≠ "") a.
Proof.
  induction a as [|s a IH]; [done|]. cbn [cleanArray]. rewrite filter_cons.
  destruct (String.eqb_spec s "") as [->|Hs].
  - by rewrite decide_False by (by intros []).
  - by rewrite decide_True, IH by done.
Qed.

End Frame.

(** C8. Frame: [Add] puts one new entry at the end of the bucket of the
    prefix it computes: behind the entries the table has under that key,
    which stay as they are and in their order, or alone in a new bucket
    when the table has none; every other bucket is untouched and every
    entry registered before is registered after; [Get] leaves the table
    as it found it. *)
Theorem Add_Get_frame {Fn : Type} (r : Routes Fn) (p : string)
    (h : Handler Fn) (path : string) :
  (∀ old, roots r !! (pattern_parts p).1 = Some old →
          roots (Add r p h) !! (pattern_parts p).1 =
            Some (old ++ [mkRoute (pattern_parts p).1 (pattern_parts p).2 h])) ∧
  (roots r !! (pattern_parts p).1 = None →
   roots (Add r p h) !! (pattern_parts p).1 =
     Some [mkRoute (pattern_parts p).1 (pattern_parts p).2 h]) ∧
  (∀ k, k ≠ (pattern_parts p).1 → roots (Add r p h) !! k = roots r !! k) ∧
  (∀ e, registered r e → registered (Add r p h) e) ∧
  (Get_st r path).2 = r.
Proof.
  split_and!.
  - intros old. apply roots_Add_old.
  - apply roots_Add_fresh.
  - intros k. apply roots_Add_ne.
  - intros e. apply registered_kept.
  - by rewrite Get_st_probes.
Qed.

Lemma Add_Get_frame_witness :
  roots (Add table_users "/users/:name/edit" h2) !! "/users" =
    Some [mkRoute "/users" [mkParam "id" false] h1;
          mkRoute "/users" [mkParam "name" false; mkParam "edit" true] h2] ∧
  roots (Add table_users "/a/:x" h2) !! "/a" =
    Some [mkRoute "/a" [mkParam "x" false] h2] ∧
  roots (Add table_users "/a/:x" h2) !! "/users" = roots table_users !! "/users" ∧
  registered (Add table_users "/users/:name/edit" h2)
    (mkRoute "/users" [mkParam "id" false] h1).
Proof.
  destruct (Add_Get_frame table_users "/users/:name/edit" h2 "/users/42")
    as (Hold & _ & _ & Hkept & _).
  destruct (Add_Get_frame table_users "/a/:x" h2 "/users/42")
    as (_ & Hfresh & Hother & _).
  split_and!.
  - apply (Hold [mkRoute "/users" [mkParam "id" false] h1]). reflexivity.
  - apply Hfresh. reflexivity.
  - apply Hother. discriminate.
  - apply Hkept. exists "/users", [mkRoute "/users" [mkParam "id" false] h1].
    split; [reflexivity|left].
Defined.

(** C7. First match wins: [matchRoutes] tries the entries in the order
    of the bucket and returns the first one that satisfies the path,
    whatever follows it; an entry satisfies the path when the number of
    non-empty raw tokens is the number of its segments and the raw token
    at the index of each fixed segment is its literal; [Add] puts the new
    entry behind the entries the table has in the bucket, so that the
    order of the bucket is the order of registration; of two patterns of
    one prefix that both match, the one registered first gives the
    handler, and an entry whose number of segments is the number of raw
    tokens, empty ones included, is passed over. *)
Theorem first_match_wins {Fn : Type} (path : string)
    (pre post : list (Route Fn)) (e : Route Fn)
    (r : Routes Fn) (p : string) (ha hb hc : Handler Fn) :
  ((∀ e', e' ∈ pre → ¬ satisfies path e') → satisfies path e →
   matchRoutes path (pre ++ e :: post)
     = Returns (function e, Some (entry_captures path e), true)) ∧
  (satisfies path e ↔
   length (filter (λ s, s ≠ "") (raw_tokens path (prefix e)))
     = length (partNames e) ∧
   ∀ i q, partNames e !! i = Some q → fixed q = true →
          raw_tokens path (prefix e) !! i = Some (name q)) ∧
  roots (Add r p ha) !! (pattern_parts p).1 =
    Some (default [] (roots r !! (pattern_parts p).1)
            ++ [mkRoute (pattern_parts p).1 (pattern_parts p).2 ha]) ∧
  Get (Add (Add NewRoutes "/u/:a" ha) "/u/:b" hb) "/u/7"
    = Returns (ha, Some {[ "a" := "7" ]}, true) ∧
  Get (Add (Add (Add NewRoutes "/u/:x/:y" hc) "/u/:a" ha) "/u/:b" hb) "/u//7"
    = Returns (ha, Some {[ "a" := "" ]}, true) ∧
  Get (Add (Add NewRoutes "/a" ha) "/a" hb) "/a" = Returns (ha, Some ∅, true).
Proof.
  split_and!.
  - intros Hpre He. rewrite matchRoutes_first_match, first_match_app.
    + cbn [first_match]. apply entry_matches_satisfies in He. by rewrite He.
    + intros e' He'. by apply entry_matches_false, Hpre.
  - unfold satisfies. by rewrite cleanArray_as_filter.
  - apply roots_Add_eq.
  - vm_compute. reflexivity.
  - vm_compute. reflexivity.
  - vm_compute. reflexivity.
Qed.

Lemma first_match_wins_witness :
  matchRoutes "/u//7"
    ([mkRoute "/u" [mkParam "x" false; mkParam "y" false] h2]
       ++ mkRoute "/u" [mkParam "a" false] h1
       :: [mkRoute "/u" [mkParam "b" false] h2])
  = Returns (h1, Some (entry_captures "/u//7" (mkRoute "/u" [mkParam "a" false] h1)),
             true).
Proof.
  destruct (first_match_wins "/u//7"
           [mkRoute "/u" [mkParam "x" false; mkParam "y" false] h2]
           [mkRoute "/u" [mkParam "b" false] h2]
           (mkRoute "/u" [mkParam "a" false] h1) NewRoutes "" h1 h2 h2)
    as [Hfirst _].
  apply Hfirst.
  - intros e' ->%list_elem_of_singleton. apply entry_matches_false. reflexivity.
  - apply entry_matches_satisfies. reflexivity.
Defined.

(** * The probes, by the shape of the path *)

Lemma truncations_fuel fuel fuel' s :
  (String.length s < fuel)%nat → (String.length s < fuel')%nat →
  truncations fuel s = truncations fuel' s.
Proof.
  revert fuel' s. induction fuel as [|fuel IH]; intros fuel' s Hf Hf'; [lia|].
  destruct fuel' as [|fuel']; [lia|]. cbn [truncations]. f_equal.
  destruct (truncate s) as [s'|] eqn:Ht; [|done].
  apply truncate_shorter in Ht. apply IH; lia.
Qed.

Lemma probes_step path b : truncate path = Some b → probes path = path :: probes b.
Proof.
  intros Ht. pose proof (truncate_shorter _ _ Ht) as Hlt. unfold probes.
  change (truncations (S (String.length path)) path)
    with (path :: match truncate path with
                  | Some b' => truncations (String.length path) b'
                  | None => []
                  end).
  rewrite Ht. f_equal. apply truncations_fuel; lia.
Qed.

Lemma probes_stop path : truncate path = None → probes path = [path].
Proof. intros Ht. unfold probes. cbn [truncations]. by rewrite Ht. Qed.

Lemma truncate_last_segment b seg :
  b ≠ "" → no_slash seg = true → truncate (b +:+ "/" +:+ seg) = Some b.
Proof.
  intros Hb Hseg. rewrite truncate_below by done.
  by rewrite (no_slash_LastIndex seg Hseg).
Qed.

Lemma truncate_top_segment seg :
  seg ≠ "" → no_slash seg = true → truncate ("/" +:+ seg) = Some "/".
Proof.
  intros Hne Hseg. unfold truncate.
  change ("/" +:+ seg) with (String slash seg). cbn [String.length LastIndex].
  rewrite (no_slash_LastIndex seg Hseg), Ascii.eqb_refl.
  destruct seg as [|c seg]; [done|]. cbn [String.length].
  destruct (Z.ltb_spec (Z.of_nat (S (S (String.length seg)))) 2); [lia|done].
Qed.

Lemma truncate_no_slash s : no_slash s = true → truncate s = None.
Proof.
  intros Hs. unfold truncate. rewrite (no_slash_LastIndex s Hs).
  by destruct (Z.of_nat (String.length s) <? 2).
Qed.

Lemma first_bucket_None {Fn : Type} (r : Routes Fn) (keys : list string) :
  (∀ k, k ∈ keys → roots r !! k = None) → first_bucket r keys = None.
Proof.
  induction keys as [|k keys IH]; intros Hnone; [done|]. simpl.
  rewrite (Hnone k) by left. apply IH. intros k' Hk'. apply Hnone. by right.
Qed.

Lemma Get_no_prefix_key {Fn : Type} (r : Routes Fn) (path : string) :
  (∀ k tail, path = k +:+ tail → roots r !! k = None) →
  Get r path = Returns notFound.
Proof.
  intros Hnone. rewrite Get_probes, first_bucket_None; [done|].
  intros k Hk.
  pose proof (truncations_prefix (S (String.length path)) path) as Hall.
  rewrite Forall_forall in Hall.
  destruct (proj1 (HasPrefix_spec path k) (Hall k Hk)) as [tail Htail].
  by eapply Hnone.
Qed.

(** C1. One-shot prefix fallback.  [Get] probes the path and then its
    truncations, each one the previous one without its last segment and
    strictly shorter: a path [b/seg] whose last segment is [seg] is
    followed by the probes of [b], a path [/seg] by the probe [/], and a
    path without separator, or [/] alone, has no further probe.  The
    bucket of the first probe that is a key of the table is handed, with
    the full path, to [matchRoutes], whose result is the result of
    [Get], match or no match, whatever shorter keys the table has: a path
    that is a key is resolved in its own bucket, a path [root/rest] none
    of whose truncations down to [root/] is a key is resolved in the
    bucket of [root], and a path no prefix of which is a key is not
    found. *)
Theorem Get_one_shot_prefix_fallback {Fn : Type} (r : Routes Fn) (path : string) :
  hd_error (probes path) = Some path ∧
  Sorted drops_last_segment (probes path) ∧
  Sorted (λ a b, (String.length b < String.length a)%nat) (probes path) ∧
  Get r path =
    match first_bucket r (probes path) with
    | Some routes => matchRoutes path routes
    | None => Returns notFound
    end ∧
  (∀ b seg, path = b +:+ "/" +:+ seg → b ≠ "" → no_slash seg = true →
            probes path = path :: probes b) ∧
  (∀ seg, path = "/" +:+ seg → seg ≠ "" → no_slash seg = true →
          probes path = [path; "/"]) ∧
  (no_slash path = true ∨ path = "/" → probes path = [path]) ∧
  (∀ routes, roots r !! path = Some routes → Get r path = matchRoutes path routes) ∧
  (∀ root rest routes,
     path = root +:+ "/" +:+ rest → root ≠ "" →
     roots r !! root = Some routes →
     (∀ rest' tail, rest = rest' +:+ tail →
                    roots r !! (root +:+ "/" +:+ rest') = None) →
     Get r path = matchRoutes path routes) ∧
  ((∀ k tail, path = k +:+ tail → roots r !! k = None) →
   Get r path = Returns notFound).
Proof.
  split_and!.
  - reflexivity.
  - apply truncations_Sorted, truncate_drops_last_segment.
  - apply truncations_Sorted, truncate_shorter.
  - apply Get_probes.
  - intros b seg -> Hb Hseg. by apply probes_step, truncate_last_segment.
  - intros seg -> Hne Hseg.
    rewrite (probes_step _ "/") by (by apply truncate_top_segment). done.
  - intros [Hs| ->]; [|done]. by apply probes_stop, truncate_no_slash.
  - intros routes Hk. rewrite Get_probes, probes_unfold. cbn [first_bucket].
    by rewrite Hk.
  - intros root rest routes -> Hroot Hk Hnone. apply Get_below; [done..|].
    intros rest' [tail ->]%HasPrefix_spec. by eapply Hnone.
  - apply Get_no_prefix_key.
Qed.

Lemma Get_one_shot_prefix_fallback_witness :
  probes ("/a/anything/at" +:+ "/" +:+ "all")
    = ("/a/anything/at" +:+ "/" +:+ "all") :: probes "/a/anything/at" ∧
  Get table_static ("/a" +:+ "/" +:+ "anything/at/all")
    = matchRoutes ("/a" +:+ "/" +:+ "anything/at/all") [mkRoute "/a" [] h1] ∧
  Get table_shadow ("/a/b" +:+ "/" +:+ "c")
    = matchRoutes ("/a/b" +:+ "/" +:+ "c") [mkRoute "/a/b" [] h2] ∧
  Get table_static "/b/c" = Returns notFound.
Proof.
  destruct (Get_one_shot_prefix_fallback table_static "/a/anything/at/all")
    as (_ & _ & _ & _ & Hprobes & _ & _ & _ & Hbelow & _).
  destruct (Get_one_shot_prefix_fallback table_shadow "/a/b/c")
    as (_ & _ & _ & _ & _ & _ & _ & _ & Hshadow & _).
  destruct (Get_one_shot_prefix_fallback table_static "/b/c")
    as (_ & _ & _ & _ & _ & _ & _ & _ & _ & Hnone).
  split_and!.
  - apply (Hprobes "/a/anything/at" "all"); [reflexivity|discriminate|reflexivity].
  - apply (Hbelow "/a" "anything/at/all"); [reflexivity|discriminate|reflexivity|].
    intros rest' tail _. apply (single_key_below "/a" h1 rest').
  - apply (Hshadow "/a/b" "c"); [reflexivity|discriminate|reflexivity|].
    intros rest' tail _. unfold table_shadow.
    assert (Hlen : ∀ k, (String.length k ≤ 4)%nat → "/a/b" +:+ "/" +:+ rest' ≠ k).
    { intros k Hk E. rewrite <- E, !length_app_string in Hk. simpl in Hk. lia. }
    rewrite roots_Add_ne by (apply Hlen; simpl; lia).
    rewrite roots_Add_ne by (apply Hlen; simpl; lia).
    apply lookup_empty.
  - apply Hnone. intros k tail E. unfold table_static.
    rewrite roots_Add, lookup_insert_ne; [apply lookup_empty|].
    intros <-. discriminate E.
Defined.

(** * [ServeHTTP] and the calls it makes *)

Section Calls.

Context {Fn V ConfigT PluginsT : Type}.
Implicit Types (m : App.minima Fn V ConfigT PluginsT).
Implicit Types (returns : App.event Fn → bool) (calls : list (App.event Fn)).

Lemma run_calls_all returns calls :
  (∀ ev, returns ev = true) → App.run_calls returns calls = (calls, Returns tt).
Proof.
  intros Hall. induction calls as [|c calls IH]; [done|].
  cbn [App.run_calls]. by rewrite Hall, IH.
Qed.

(** A run of calls ends by returning or by the panic of the last call
    made, and returns exactly when every call made returns. *)
Lemma run_calls_outcome returns calls :
  ((App.run_calls returns calls).2 = Returns tt ∨
   (App.run_calls returns calls).2 = Panics) ∧
  ((App.run_calls returns calls).2 = Panics ↔
   ∃ ev, last (App.run_calls returns calls).1 = Some ev ∧ returns ev = false) ∧
  ((App.run_calls returns calls).2 = Returns tt ↔
   ∀ ev, ev ∈ (App.run_calls returns calls).1 → returns ev = true).
Proof.
  induction calls as [|c calls (IHor & IHpanic & IHret)].
  - cbn. split_and!; [by left| |].
    + split; [done|]. by intros (ev & [=] & _).
    + split; [|done]. by intros _ ev ?%elem_of_nil.
  - cbn [App.run_calls]. destruct (returns c) eqn:Hc; cbn [fst snd].
    + split_and!; [done| |].
      * rewrite IHpanic. split.
        -- intros (ev & Hlast & Hev). exists ev. split; [|done].
           destruct ((App.run_calls returns calls).1); [done|]. exact Hlast.
        -- intros (ev & Hlast & Hev). exists ev. split; [|done].
           destruct ((App.run_calls returns calls).1) as [|c' tr]; [|exact Hlast].
           simpl in Hlast. congruence.
      * rewrite IHret. split.
        -- intros H ev [->|Hin]%elem_of_cons; auto.
        -- intros H ev Hin. apply H. by right.
    + split_and!; [by right| |].
      * split; [|done]. intros _. by exists c.
      * split; [done|]. intros H. specialize (H c ltac:(left)). congruence.
Qed.

End Calls.

(** X17. A request for which [Get] on the table of its method reports
    no match, as it does whenever no bucket key of that table is a
    prefix of the path, is answered by the handler [notfound] when there
    is one and by the body ["No matching route found"] otherwise: the
    calls [ServeHTTP] makes are [response], [request] and that one, as
    far as they return; the form is not parsed, the plug-ins do not run
    and no route handler is called. *)
Theorem ServeHTTP_no_match {Fn V ConfigT PluginsT : Type}
    (m : App.minima Fn V ConfigT PluginsT) (method path : string)
    (form_ok : bool) (table : Routes Fn) (returns : App.event Fn → bool) :
  App.routes (App.router m) !! method = Some table →
  (∀ k tail, path = k +:+ tail → roots table !! k = None) ∨
  not_found (Get table path) →
  App.ServeHTTP m method path form_ok =
    ([App.MakeResponse; App.MakeRequest;
      match App.notfound (App.router m) with
      | Some nf => App.CallNotFound nf
      | None => App.WriteBody "No matching route found"
      end], Returns tt) ∧
  App.ServeHTTP_calls m method path form_ok returns =
    App.run_calls returns
      [App.MakeResponse; App.MakeRequest;
       match App.notfound (App.router m) with
       | Some nf => App.CallNotFound nf
       | None => App.WriteBody "No matching route found"
       end].
Proof.
  intros Ht Hno.
  assert (Hget : ∃ h mo, Get table path = Returns (h, mo, false)).
  { destruct Hno as [Hkeys|Hnf]; [|exact Hnf].
    exists None, None. by apply Get_no_prefix_key. }
  destruct Hget as (h & mo & Hget).
  unfold App.ServeHTTP, App.ServeHTTP_calls. rewrite Ht, Hget.
  split; [|done]. by destruct (App.notfound (App.router m)).
Qed.

Lemma ServeHTTP_no_match_witness :
  App.ServeHTTP
    (App.New (V:=nat) (App.mkRouter {[ "GET" := table_users ]} None) tt tt)
    "GET" "/posts" true =
    ([App.MakeResponse; App.MakeRequest;
      App.WriteBody "No matching route found"], Returns tt) ∧
  App.ServeHTTP
    (App.New (V:=nat) (App.mkRouter {[ "GET" := table_users ]} None) tt tt)
    "GET" "/users/42/posts" true =
    ([App.MakeResponse; App.MakeRequest;
      App.WriteBody "No matching route found"], Returns tt).
Proof.
  split.
  - refine (proj1 (ServeHTTP_no_match
             (App.New (V:=nat) (App.mkRouter {[ "GET" := table_users ]} None) tt tt)
             "GET" "/posts" true table_users (λ _, true) _ _)); [reflexivity|].
    left. intros k tail E. unfold table_users.
    rewrite roots_Add, lookup_insert_ne; [apply lookup_empty|].
    intros <-. discriminate E.
  - refine (proj1 (ServeHTTP_no_match
             (App.New (V:=nat) (App.mkRouter {[ "GET" := table_users ]} None) tt tt)
             "GET" "/users/42/posts" true table_users (λ _, true) _ _));
      [reflexivity|].
    right. exists None, None. vm_compute. reflexivity.
Defined.

(** X18. [ServeHTTP] has no [recover].  For a method without table it
    panics before any call is made.  For a method with a table in which
    every registered handler is not nil, it ends by returning or by a
    panic; it panics exactly when the last call it made panicked, and it
    returns exactly when every call it made returned.  When every call
    returns, it makes the calls and ends as [App.ServeHTTP] tells. *)
Theorem ServeHTTP_panics_only {Fn V ConfigT PluginsT : Type}
    (m : App.minima Fn V ConfigT PluginsT) (method path : string)
    (form_ok : bool) (returns : App.event Fn → bool) :
  (App.routes (App.router m) !! method = None →
   App.ServeHTTP_calls m method path form_ok returns = ([], Panics)) ∧
  (∀ table, App.routes (App.router m) !! method = Some table →
     (∀ e, registered table e → function e ≠ None) →
     ((App.ServeHTTP_calls m method path form_ok returns).2 = Returns tt ∨
      (App.ServeHTTP_calls m method path form_ok returns).2 = Panics) ∧
     ((App.ServeHTTP_calls m method path form_ok returns).2 = Panics ↔
      ∃ ev, last (App.ServeHTTP_calls m method path form_ok returns).1 = Some ev ∧
            returns ev = false) ∧
     ((App.ServeHTTP_calls m method path form_ok returns).2 = Returns tt ↔
      ∀ ev, ev ∈ (App.ServeHTTP_calls m method path form_ok returns).1 →
            returns ev = true)) ∧
  ((∀ ev, returns ev = true) →
   App.ServeHTTP_calls m method path form_ok returns
     = App.ServeHTTP m method path form_ok).
Proof.
  split_and!.
  - unfold App.ServeHTTP_calls. by intros ->.
  - intros table Ht Hfn. unfold App.ServeHTTP_calls. rewrite Ht.
    destruct (Get_returns table path) as (f & mo & found & Hget). rewrite Hget.
    destruct found; [|apply run_calls_outcome].
    apply Get_found_entry in Hget as (e & Hreg & _ & Hfun & _).
    destruct f as [fn|]; [|by destruct (Hfn e Hreg)].
    destruct form_ok; apply run_calls_outcome.
  - intros Hall. unfold App.ServeHTTP_calls, App.ServeHTTP.
    destruct (App.routes (App.router m) !! method) as [table|]; [|done].
    destruct (Get table path) as [[[f mo] found]| |]; [|done..].
    destruct found.
    + destruct form_ok; [|by rewrite run_calls_all].
      destruct f; by rewrite run_calls_all.
    + rewrite run_calls_all by done. by destruct (App.notfound (App.router m)).
Qed.

Lemma ServeHTTP_panics_only_witness :
  let m := App.New (V:=nat) (App.mkRouter {[ "GET" := table_users ]} None) tt tt in
  let returns := λ ev : App.event nat,
    match ev with App.ServePlugin _ => false | _ => true end in
  App.ServeHTTP_calls m "TRACE" "/users/42" true returns = ([], Panics) ∧
  ((App.ServeHTTP_calls m "GET" "/users/42" true returns).2 = Panics ↔
   ∃ ev, last (App.ServeHTTP_calls m "GET" "/users/42" true returns).1 = Some ev ∧
         returns ev = false) ∧
  App.ServeHTTP_calls m "GET" "/users/42" true returns =
    ([App.ParseForm; App.MakeResponse; App.MakeRequest;
      App.ServePlugin (Some {[ "id" := "42" ]})], Panics).
Proof.
  intros m returns.
  destruct (ServeHTTP_panics_only m "TRACE" "/users/42" true returns)
    as (Hnil & _ & _).
  destruct (ServeHTTP_panics_only m "GET" "/users/42" true returns)
    as (_ & Htable & _).
  split_and!.
  - apply Hnil. reflexivity.
  - apply (Htable table_users); [reflexivity|].
    intros e (k & routes & Hk & He).
    unfold table_users in Hk. rewrite roots_Add in Hk.
    apply lookup_insert_Some in Hk as [[_ <-]|[_ Hk]].
    + apply list_elem_of_singleton in He. by subst e.
    + simpl in Hk. by rewrite lookup_empty in Hk.
  - vm_compute. reflexivity.
Defined.
